(** * postcss-modular-type: the scale generator and its two substitution policies

    A shallow embedding of [src/index.ts].  The plugin closure computes, once
    per invocation, an insertion-ordered [Map] from custom-property names to
    [clamp(...)] expressions, and returns two visitors ([Rule] and
    [Declaration]) that read that map.

    What belongs to the JavaScript runtime rather than to the plugin is kept
    abstract: the IEEE arithmetic of [Number], [Math.pow] and the digit
    generation of [Number.prototype.toFixed] are the operations of the class
    [JSNumber]; the tokenizer of [postcss-value-parser] is a section variable.
    Step counts and the precision are integers and are modelled in [Z]. *)

From Stdlib Require Import ZArith List String Ascii Bool Lia.
From Stdlib Require Import DecimalString DecimalZ.
From Stdlib Require Import QArith Qcanon Qround Qabs.
Import ListNotations.

Local Open Scope string_scope.
Local Open Scope Z_scope.

(** ** JavaScript strings *)

(** The line feed written [\n] in the source. *)
Definition nl : string := String (ascii_of_nat 10) EmptyString.

(** [`${n}`] for an integer-valued number [n]. *)
Definition string_of_Z (z : Z) : string :=
  NilEmpty.string_of_int (Z.to_int z).

(** [Array.prototype.join] with the given separator. *)
Fixpoint join (sep : string) (l : list string) : string :=
  match l with
  | [] => ""
  | [x] => x
  | x :: rest => x ++ sep ++ join sep rest
  end.

(** [Array.prototype.toString]: the elements joined by commas. *)
Definition Array_toString (l : list string) : string := join "," l.

(** [String.prototype.includes]: [sub] occurs somewhere in [s]. *)
Fixpoint includes (s sub : string) : bool :=
  String.prefix sub s
  || match s with
     | EmptyString => false
     | String _ rest => includes rest sub
     end.

(** [array[i]] inside a template literal: a missing element prints as
    [undefined]. *)
Definition index_or_undefined (l : list string) (i : Z) : string :=
  if i <? 0 then "undefined" else nth (Z.to_nat i) l "undefined".

(** Truthiness of a string: only the empty string is falsy. *)
Definition truthy (s : string) : bool :=
  match s with
  | EmptyString => false
  | String _ _ => true
  end.

(** ** JavaScript numbers *)

(** The operations of [Number] that the plugin uses.  [Number_lit m e] is the
    value of the decimal literal [m * 10^e]; [Number_toFixed x p] is the
    digit string that [x.toFixed(p)] produces when [p] is in range. *)
Class JSNumber (num : Type) : Type := {
  Number_lit : Z -> Z -> num;
  Number_sub : num -> num -> num;
  Number_mul : num -> num -> num;
  Number_div : num -> num -> num;
  Math_pow : num -> num -> num;
  Number_toFixed : num -> Z -> string
}.

Declare Scope js_scope.
Delimit Scope js_scope with js.
Infix "-" := Number_sub : js_scope.
Infix "*" := Number_mul : js_scope.
Infix "/" := Number_div : js_scope.

(** An integer as a number. *)
Definition Number_ofZ {num} `{JSNumber num} (z : Z) : num := Number_lit z 0.

(** The two facts of IEEE arithmetic and of [Math.pow] that the base step
    relies on: [Math.pow(x, 0)] is [1] for every [x], and multiplying by [1]
    returns the other operand. *)
Class JSNumberLaws (num : Type) `{JSNumber num} : Prop := {
  Math_pow_zero : forall x : num, Math_pow x (Number_ofZ 0) = Number_ofZ 1;
  Number_mul_one : forall x : num, (x * Number_ofZ 1)%js = x
}.

(** ** Errors *)

(** The two exceptions that can leave the plugin: the [Error] thrown by the
    suffix check, and the [RangeError] of [toFixed] for a digit count outside
    0..100. *)
Inductive error : Type :=
| ConfigurationError (message : string)
| RangeError.

Inductive result (A : Type) : Type :=
| Ok (a : A)
| Throw (e : error).
Arguments Ok {A} a.
Arguments Throw {A} e.

Definition bind {A B} (r : result A) (k : A -> result B) : result B :=
  match r with
  | Ok a => k a
  | Throw e => Throw e
  end.

Notation "x <- r ;; k" := (bind r (fun x => k))
  (at level 61, r at next level, right associativity).

(** [x.toFixed(fractionDigits)]. *)
Definition toFixed {num} `{JSNumber num} (x : num) (fractionDigits : Z)
  : result string :=
  if (fractionDigits <? 0) || (100 <? fractionDigits)
  then Throw RangeError
  else Ok (Number_toFixed x fractionDigits).

(** ** Configuration *)

Inductive SuffixType : Type := numbered | values.
Inductive Unit : Type := px | rem.

Definition Unit_toString (u : Unit) : string :=
  match u with
  | px => "px"
  | rem => "rem"
  end.

Definition SuffixType_eqb (a b : SuffixType) : bool :=
  match a, b with
  | numbered, numbered | values, values => true
  | _, _ => false
  end.

Definition Unit_eqb (a b : Unit) : bool :=
  match a, b with
  | px, px | rem, rem => true
  | _, _ => false
  end.

Record Config (num : Type) : Type := mkConfig {
  minScreenWidth : num;
  maxScreenWidth : num;
  minFontSize : num;
  maxFontSize : num;
  minRatio : num;
  maxRatio : num;
  minStep : Z;
  maxStep : Z;
  rootFontSize : num;
  precision : Z;
  prefix : string;
  suffixType : SuffixType;
  suffixValues : list string;
  unit : Unit;
  replaceInline : bool;
  generatorDirective : string
}.
Arguments mkConfig {num}.
Arguments minScreenWidth {num}.
Arguments maxScreenWidth {num}.
Arguments minFontSize {num}.
Arguments maxFontSize {num}.
Arguments minRatio {num}.
Arguments maxRatio {num}.
Arguments minStep {num}.
Arguments maxStep {num}.
Arguments rootFontSize {num}.
Arguments precision {num}.
Arguments prefix {num}.
Arguments suffixType {num}.
Arguments suffixValues {num}.
Arguments unit {num}.
Arguments replaceInline {num}.
Arguments generatorDirective {num}.

(** [Partial<Config>]: every field may be absent. *)
Record PartialConfig (num : Type) : Type := mkPartial {
  opt_minScreenWidth : option num;
  opt_maxScreenWidth : option num;
  opt_minFontSize : option num;
  opt_maxFontSize : option num;
  opt_minRatio : option num;
  opt_maxRatio : option num;
  opt_minStep : option Z;
  opt_maxStep : option Z;
  opt_rootFontSize : option num;
  opt_precision : option Z;
  opt_prefix : option string;
  opt_suffixType : option SuffixType;
  opt_suffixValues : option (list string);
  opt_unit : option Unit;
  opt_replaceInline : option bool;
  opt_generatorDirective : option string
}.
Arguments mkPartial {num}.
Arguments opt_minScreenWidth {num}.
Arguments opt_maxScreenWidth {num}.
Arguments opt_minFontSize {num}.
Arguments opt_maxFontSize {num}.
Arguments opt_minRatio {num}.
Arguments opt_maxRatio {num}.
Arguments opt_minStep {num}.
Arguments opt_maxStep {num}.
Arguments opt_rootFontSize {num}.
Arguments opt_precision {num}.
Arguments opt_prefix {num}.
Arguments opt_suffixType {num}.
Arguments opt_suffixValues {num}.
Arguments opt_unit {num}.
Arguments opt_replaceInline {num}.
Arguments opt_generatorDirective {num}.

(** The empty options object [{}]. *)
Definition no_opts {num} : PartialConfig num :=
  mkPartial None None None None None None None None
            None None None None None None None None.

(** One property of [Object.assign(target, source)]: the source's value when
    the source has the property, the target's otherwise. *)
Definition assign_field {A} (target : A) (source : option A) : A :=
  match source with
  | Some v => v
  | None => target
  end.

(** [Object.assign(target, opts)]: the target after the copy, which is also
    the value returned. *)
Definition Object_assign {num} (target : Config num) (opts : PartialConfig num)
  : Config num :=
  {| minScreenWidth := assign_field (minScreenWidth target) (opt_minScreenWidth opts);
     maxScreenWidth := assign_field (maxScreenWidth target) (opt_maxScreenWidth opts);
     minFontSize := assign_field (minFontSize target) (opt_minFontSize opts);
     maxFontSize := assign_field (maxFontSize target) (opt_maxFontSize opts);
     minRatio := assign_field (minRatio target) (opt_minRatio opts);
     maxRatio := assign_field (maxRatio target) (opt_maxRatio opts);
     minStep := assign_field (minStep target) (opt_minStep opts);
     maxStep := assign_field (maxStep target) (opt_maxStep opts);
     rootFontSize := assign_field (rootFontSize target) (opt_rootFontSize opts);
     precision := assign_field (precision target) (opt_precision opts);
     prefix := assign_field (prefix target) (opt_prefix opts);
     suffixType := assign_field (suffixType target) (opt_suffixType opts);
     suffixValues := assign_field (suffixValues target) (opt_suffixValues opts);
     unit := assign_field (unit target) (opt_unit opts);
     replaceInline := assign_field (replaceInline target) (opt_replaceInline opts);
     generatorDirective :=
       assign_field (generatorDirective target) (opt_generatorDirective opts) |}.

(** The module-level [defaultConfig] object as the source initialises it. *)
Definition defaultConfig {num} `{JSNumber num} : Config num :=
  {| minScreenWidth := Number_ofZ 320;
     maxScreenWidth := Number_ofZ 1536;
     minFontSize := Number_ofZ 16;
     maxFontSize := Number_ofZ 20;
     minRatio := Number_lit 12 (-1);
     maxRatio := Number_lit 1333 (-3);
     minStep := 2;
     maxStep := 5;
     precision := 2;
     prefix := "font-size-";
     rootFontSize := Number_ofZ 16;
     suffixType := numbered;
     suffixValues := ["xs"; "sm"; "base"; "md"; "lg"; "xl"; "xxl"; "xxxl"];
     unit := rem;
     replaceInline := false;
     generatorDirective := "postcss-modular-type-generate" |}.

(** ** The steps map *)

(** A JavaScript [Map<string, string>]: entries in insertion order; [set] on a
    key that is present replaces its value where the key stands. *)
Module StepsMap.

Definition t : Type := list (string * string).

Definition empty : t := [].

Fixpoint set (k v : string) (m : t) : t :=
  match m with
  | [] => [(k, v)]
  | (k', v') :: rest =>
      if String.eqb k' k then (k, v) :: rest else (k', v') :: set k v rest
  end.

Fixpoint get (k : string) (m : t) : option string :=
  match m with
  | [] => None
  | (k', v') :: rest => if String.eqb k' k then Some v' else get k rest
  end.

Definition keys (m : t) : list string := map fst m.

Definition size (m : t) : Z := Z.of_nat (List.length m).

End StepsMap.

(** ** The scale generator *)

Section Generator.

Context {num : Type} `{JSNumber num}.

Definition baseIndex (c : Config num) : Z := maxStep c - minStep c - 1.

Definition toRem (c : Config num) (pxValue : num) : num :=
  (pxValue / rootFontSize c)%js.

(** The guard of the [throw]: too few suffixes for the steps asked for. *)
Definition insufficient_suffixes (c : Config num) : bool :=
  SuffixType_eqb (suffixType c) values
  && (Z.of_nat (List.length (suffixValues c)) <=? maxStep c + minStep c).

(** The message of the [Error] thrown by the suffix check. *)
Definition insufficient_message (c : Config num) : string :=
  "Insufficient suffixes passed." ++ nl
  ++ "Number of steps: " ++ string_of_Z (minStep c) ++ "(minstep) + "
  ++ string_of_Z (maxStep c) ++ "(maxStep) + 1(baseStep) = "
  ++ string_of_Z (minStep c + maxStep c + 1) ++ nl
  ++ "Number of suffixes: "
  ++ string_of_Z (Z.of_nat (List.length (suffixValues c))) ++ nl
  ++ "Current suffix list: " ++ Array_toString (suffixValues c) ++ nl.

(** The four locals reassigned under [unit === "rem"]; every other local
    keeps the value destructured from the resolved options. *)
Definition convert_units (c : Config num) : Config num :=
  match unit c with
  | rem =>
      {| minScreenWidth := toRem c (minScreenWidth c);
         maxScreenWidth := toRem c (maxScreenWidth c);
         minFontSize := toRem c (minFontSize c);
         maxFontSize := toRem c (maxFontSize c);
         minRatio := minRatio c;
         maxRatio := maxRatio c;
         minStep := minStep c;
         maxStep := maxStep c;
         rootFontSize := rootFontSize c;
         precision := precision c;
         prefix := prefix c;
         suffixType := suffixType c;
         suffixValues := suffixValues c;
         unit := unit c;
         replaceInline := replaceInline c;
         generatorDirective := generatorDirective c |}
  | px => c
  end.

(** *** The body of the loop, one definition per [const] *)

Definition power (c : Config num) (step : Z) : Z := step - baseIndex c.

Definition minStepRatio (c : Config num) (step : Z) : num :=
  Math_pow (minRatio c) (Number_ofZ (power c step)).

Definition maxStepRatio (c : Config num) (step : Z) : num :=
  Math_pow (maxRatio c) (Number_ofZ (power c step)).

Definition fsMinSize (c : Config num) (step : Z) : num :=
  (minFontSize c * minStepRatio c step)%js.

Definition fsMaxSize (c : Config num) (step : Z) : num :=
  (maxFontSize c * maxStepRatio c step)%js.

Definition slope (c : Config num) (step : Z) : num :=
  ((fsMaxSize c step - fsMinSize c step)
   / (maxScreenWidth c - minScreenWidth c))%js.

Definition yIntersect (c : Config num) (step : Z) : result string :=
  toFixed (fsMinSize c step - slope c step * minScreenWidth c)%js
          (precision c).

Definition slopeVw (c : Config num) (step : Z) : result string :=
  toFixed (slope c step * Number_ofZ 100)%js (precision c).

Definition fsMinFinal (c : Config num) (step : Z) : result string :=
  digits <- toFixed (fsMinSize c step) (precision c) ;;
  Ok (digits ++ Unit_toString (unit c)).

Definition fsMaxFinal (c : Config num) (step : Z) : result string :=
  digits <- toFixed (fsMaxSize c step) (precision c) ;;
  Ok (digits ++ Unit_toString (unit c)).

Definition key (c : Config num) (step : Z) : string :=
  match suffixType c with
  | values => "--" ++ prefix c ++ index_or_undefined (suffixValues c) step
  | numbered => "--" ++ prefix c ++ string_of_Z (power c step)
  end.

Definition value (c : Config num) (step : Z) : result string :=
  yi <- yIntersect c step ;;
  sv <- slopeVw c step ;;
  fmin <- fsMinFinal c step ;;
  fmax <- fsMaxFinal c step ;;
  Ok ("clamp(" ++ fmin ++ ",  " ++ sv ++ "vw + " ++ yi
      ++ Unit_toString (unit c) ++ " , " ++ fmax ++ ")").

(** The values taken by [step] in
    [for (let step = 0; step <= maxStep + minStep; step++)]. *)
Definition steps (c : Config num) : list Z :=
  map Z.of_nat (seq 0 (Z.to_nat (maxStep c + minStep c + 1))).

(** The loop: each iteration computes its value and [set]s it under its
    key; an exception ends the loop. *)
Fixpoint for_steps (c : Config num) (todo : list Z) (stepsMap : StepsMap.t)
  : result StepsMap.t :=
  match todo with
  | [] => Ok stepsMap
  | step :: later =>
      v <- value c step ;;
      for_steps c later (StepsMap.set (key c step) v stepsMap)
  end.

(** The steps map built by the plugin for the resolved options. *)
Definition generate (resolvedOptions : Config num) : result StepsMap.t :=
  if insufficient_suffixes resolvedOptions
  then Throw (ConfigurationError (insufficient_message resolvedOptions))
  else for_steps (convert_units resolvedOptions) (steps resolvedOptions)
                 StepsMap.empty.

(** What the returned visitors close over. *)
Record Plugin : Type := mkPlugin {
  stepsMap : StepsMap.t;
  plugin_replaceInline : bool;
  plugin_generatorDirective : string;
  plugin_prefix : string
}.

Definition plugin_body (resolvedOptions : Config num) : result Plugin :=
  m <- generate resolvedOptions ;;
  Ok {| stepsMap := m;
        plugin_replaceInline := replaceInline resolvedOptions;
        plugin_generatorDirective := generatorDirective resolvedOptions;
        plugin_prefix := prefix resolvedOptions |}.

(** One call of [plugin(opts)].  The shared [defaultConfig] object is the
    state: [Object.assign] writes [opts] into it and returns it, so the
    resolved options and the new [defaultConfig] are the same object. *)
Definition plugin (opts : PartialConfig num) (shared : Config num)
  : result Plugin * Config num :=
  let resolvedOptions := Object_assign shared opts in
  (plugin_body resolvedOptions, resolvedOptions).

(** Two calls in the same process, the second seeing the state left by the
    first. *)
Definition plugin_twice (optsA optsB : PartialConfig num) (shared : Config num)
  : result Plugin * Config num :=
  plugin optsB (snd (plugin optsA shared)).

End Generator.

(** ** The substitution engine *)

Local Unset Elimination Schemes.

(** The nodes of a PostCSS document that the visitors meet. *)
Inductive node : Type :=
| decl (prop : string) (value : string)
| comment (text : string)
| rule (selector : string) (nodes : list node)
| atrule (name : string) (params : string) (nodes : list node).

(** The nodes of [postcss-value-parser]; each carries its [value], a
    [function] node also its arguments. *)
Inductive vnode : Type :=
| word (value : string)
| vstring (value : string)
| div (value : string)
| space (value : string)
| vcomment (value : string)
| unicode_range (value : string)
| func (value : string) (nodes : list vnode).

Local Set Elimination Schemes.

(** [container.walkComments(callback)]: every comment below the container, in
    document order.  [callback] answers [Some replacement] when it calls
    [cmt.replaceWith(replacement)] and [None] when it leaves the comment; the
    walk goes on after the nodes put in the comment's place. *)
Fixpoint walkComments_node (callback : string -> option (list node)) (n : node)
  : list node :=
  match n with
  | comment text =>
      match callback text with
      | Some replacement => replacement
      | None => [n]
      end
  | decl _ _ => [n]
  | rule selector nodes =>
      [rule selector (flat_map (walkComments_node callback) nodes)]
  | atrule name params nodes =>
      [atrule name params (flat_map (walkComments_node callback) nodes)]
  end.

Definition walkComments (callback : string -> option (list node))
  (nodes : list node) : list node :=
  flat_map (walkComments_node callback) nodes.

(** [parsed.walk(callback)] of the value parser: nodes in order, a function
    node before its arguments; [St] is the state the callback updates. *)
Fixpoint walk_vnode {St : Type} (callback : vnode -> St -> St) (n : vnode)
  (s : St) : St :=
  let s' := callback n s in
  match n with
  | func _ nodes => fold_left (fun acc m => walk_vnode callback m acc) nodes s'
  | _ => s'
  end.

Definition walk {St : Type} (callback : vnode -> St -> St) (parsed : list vnode)
  (s : St) : St :=
  fold_left (fun acc m => walk_vnode callback m acc) parsed s.

Section Substitution.

(** The tokenizer, [valueParser(decl.value).nodes]. *)
Variable valueParser : string -> list vnode.

Variable P : Plugin.

(** The declarations pushed on [fontVars]. *)
Definition fontVars : list node :=
  map (fun kv => decl (fst kv) (snd kv)) (stepsMap P).

(** The [Rule] visitor, on a rule with the given selector and children;
    the result is the rule's children afterwards. *)
Definition Rule (selector : string) (nodes : list node) : list node :=
  if plugin_replaceInline P then nodes
  else
    walkComments
      (fun text =>
         if String.eqb text (plugin_generatorDirective P)
         then Some fontVars
         else None)
      nodes.

(** The callback given to [parsed.walk]; the state is [decl.value]. *)
Definition replace_word (valueNode : vnode) (declValue : string) : string :=
  match valueNode with
  | word w =>
      match StepsMap.get w (stepsMap P) with
      | Some v => if truthy v then v else declValue
      | None => declValue
      end
  | _ => declValue
  end.

(** The [Declaration] visitor; the result is [decl.value] afterwards. *)
Definition Declaration (prop : string) (declValue : string) : string :=
  if plugin_replaceInline P && includes declValue (plugin_prefix P)
  then walk replace_word (valueParser declValue) declValue
  else declValue.

End Substitution.

(** ** A reference implementation of the numbers: exact rationals

    Exact arithmetic on canonical rationals, with [toFixed] rounding the
    magnitude to the nearest multiple of [10^-p] (ties upwards) as ECMAScript
    prescribes.  It instantiates [JSNumber] so that the generator can be run
    on concrete configurations. *)
Module Exact.

Definition lit (m e : Z) : Qc := Q2Qc (inject_Z m * Qpower (10 # 1) e).

(** The plugin raises only to integer powers; a fractional exponent is
    rounded down here. *)
Definition pow (x y : Qc) : Qc := Q2Qc (Qpower x (Qfloor y)).

Fixpoint zeros (n : nat) : string :=
  match n with
  | O => ""
  | S n' => String "0" (zeros n')
  end.

(** The decimal digits of [n >= 0], at least [p + 1] of them, with the point
    before the last [p]. *)
Definition place_point (n : Z) (p : nat) : string :=
  let digits := string_of_Z n in
  let padded := zeros (S p - String.length digits) ++ digits in
  let k := (String.length padded - p)%nat in
  match p with
  | O => padded
  | _ => substring 0 k padded ++ "." ++ substring k p padded
  end.

Definition toFixed_digits (x : Qc) (p : Z) : string :=
  let n := Qfloor (Qabs x * Qpower (10 # 1) p + (1 # 2)) in
  (if Qle_bool 0 x then "" else "-") ++ place_point n (Z.to_nat p).

#[export] Instance number : JSNumber Qc := {
  Number_lit := lit;
  Number_sub := Qcminus;
  Number_mul := Qcmult;
  Number_div := Qcdiv;
  Math_pow := pow;
  Number_toFixed := toFixed_digits
}.

End Exact.

Import Exact.

(** ** A small tokenizer

    A value tokenizer in the manner of [postcss-value-parser] for values made
    of words, blanks, commas, slashes and function calls.  It stands in for
    the real tokenizer when the [Declaration] visitor is run on an example. *)
Module SimpleParser.

Definition flush (w : string) (acc : list vnode) : list vnode :=
  match w with
  | EmptyString => acc
  | _ => word w :: acc
  end.

Fixpoint unwind (inner : list vnode) (stack : list (string * list vnode))
  : list vnode :=
  match stack with
  | [] => inner
  | (name, outer) :: below => unwind (rev (func name inner :: outer)) below
  end.

(** [w] is the word being read, [acc] the nodes of the current level in
    reverse, [stack] the enclosing function calls. *)
Fixpoint scan (s : string) (w : string) (acc : list vnode)
  (stack : list (string * list vnode)) : list vnode :=
  match s with
  | EmptyString => unwind (rev (flush w acc)) stack
  | String ch rest =>
      if Ascii.eqb ch " " then scan rest "" (space " " :: flush w acc) stack
      else if Ascii.eqb ch "," || Ascii.eqb ch "/"
      then scan rest "" (div (String ch "") :: flush w acc) stack
      else if Ascii.eqb ch "(" then scan rest "" [] ((w, acc) :: stack)
      else if Ascii.eqb ch ")" then
        match stack with
        | (name, outer) :: below =>
            scan rest "" (func name (rev (flush w acc)) :: outer) below
        | [] => scan rest (w ++ String ch "") acc stack
        end
      else scan rest (w ++ String ch "") acc stack
  end.

Definition parse (s : string) : list vnode := scan s "" [] [].

End SimpleParser.

(** ** Notions used by the statements *)

Section Notions.

Context {num : Type} `{JSNumber num}.

(** The configurations the generator is meant for: step counts and the
    precision are non-negative, and under [values] there is a suffix for
    every step.  That [toFixed] accepts at most 100 digits is not part of
    it and is assumed apart where it matters. *)
Definition valid_config (c : Config num) : Prop :=
  0 <= minStep c /\ 0 <= maxStep c
  /\ 0 <= precision c
  /\ (suffixType c = values ->
      maxStep c + minStep c < Z.of_nat (List.length (suffixValues c))).

(** The number of steps of the scale. *)
Definition step_count (c : Config num) : nat :=
  Z.to_nat (maxStep c + minStep c + 1).

(** [x.toFixed(precision)] followed by the unit. *)
Definition fixed_with_unit (c : Config num) (x : num) : string :=
  Number_toFixed x (precision c) ++ Unit_toString (unit c).

(** The expression of a step when the precision is in range, written out
    from the numbers. *)
Definition value_text (c : Config num) (step : Z) : string :=
  "clamp(" ++ fixed_with_unit c (fsMinSize c step) ++ ",  "
  ++ Number_toFixed (slope c step * Number_ofZ 100)%js (precision c)
  ++ "vw + "
  ++ fixed_with_unit c
       (fsMinSize c step - slope c step * minScreenWidth c)%js
  ++ " , " ++ fixed_with_unit c (fsMaxSize c step) ++ ")".

(** The expression as the specification's template spells it:
    [clamp({fsMinFinal}, {slopeVw}vw + {yIntersect}, {fsMaxFinal})], where
    [yIntersect] carries its unit. *)
Definition value_as_specified (c : Config num) (step : Z) : result string :=
  yi <- yIntersect c step ;;
  sv <- slopeVw c step ;;
  fmin <- fsMinFinal c step ;;
  fmax <- fsMaxFinal c step ;;
  Ok ("clamp(" ++ fmin ++ ", " ++ sv ++ "vw + " ++ yi
      ++ Unit_toString (unit c) ++ ", " ++ fmax ++ ")").

(** The entry that the iteration for [step] passes to [stepsMap.set]. *)
Definition entry (c : Config num) (step : Z) : string * string :=
  (key c step, value_text c step).

(** The loop without its exceptions. *)
Definition set_all (c : Config num) (todo : list Z) (m : StepsMap.t)
  : StepsMap.t :=
  fold_left (fun acc step => StepsMap.set (key c step) (value_text c step) acc)
            todo m.

End Notions.

(** A comment with the given text somewhere in or below the node. *)
Fixpoint mentions (directive : string) (n : node) : bool :=
  match n with
  | comment text => String.eqb text directive
  | decl _ _ => false
  | rule _ nodes => existsb (mentions directive) nodes
  | atrule _ _ nodes => existsb (mentions directive) nodes
  end.

(** The texts of the word tokens, a function's name before its arguments'. *)
Fixpoint word_tokens_of (n : vnode) : list string :=
  match n with
  | word w => [w]
  | func _ nodes => flat_map word_tokens_of nodes
  | _ => []
  end.

Definition word_tokens (parsed : list vnode) : list string :=
  flat_map word_tokens_of parsed.

(** The expressions of the tokens that are keys of the map, in token order. *)
Fixpoint matches (m : StepsMap.t) (tokens : list string) : list string :=
  match tokens with
  | [] => []
  | w :: rest =>
      match StepsMap.get w m with
      | Some v => v :: matches m rest
      | None => matches m rest
      end
  end.

(** The integers [from], [from + 1], ... ([count] of them). *)
Fixpoint Z_range (from : Z) (count : nat) : list Z :=
  match count with
  | O => []
  | S n => from :: Z_range (from + 1) n
  end.

(** ** Strings: auxiliary facts *)

Lemma append_cancel_l (p a b : string) : p ++ a = p ++ b -> a = b.
Proof.
  induction p as [|ch p IH]; simpl; intros E.
  - exact E.
  - injection E as E. auto.
Qed.

Lemma append_assoc (a b c : string) : (a ++ b) ++ c = a ++ b ++ c.
Proof.
  induction a as [|ch a IH]; simpl; [reflexivity | now rewrite IH].
Qed.

Lemma string_of_Z_inj (a b : Z) : string_of_Z a = string_of_Z b -> a = b.
Proof.
  unfold string_of_Z. intros E.
  apply DecimalZ.to_int_inj.
  assert (S : Some (Z.to_int a) = Some (Z.to_int b)).
  { rewrite <- (NilEmpty.isi (Z.to_int a)), <- (NilEmpty.isi (Z.to_int b)).
    now rewrite E. }
  now injection S.
Qed.

Lemma truthy_nonempty (s : string) : truthy s = true <-> s <> "".
Proof.
  destruct s; simpl; split; intros; congruence.
Qed.

(** ** The steps map: auxiliary facts *)

Lemma set_fresh (k v : string) (m : StepsMap.t) :
  ~ In k (StepsMap.keys m) -> StepsMap.set k v m = (m ++ [(k, v)])%list.
Proof.
  induction m as [|[k' v'] m IH]; simpl; intros N.
  - reflexivity.
  - destruct (String.eqb_spec k' k) as [->|D].
    + exfalso. apply N. now left.
    + rewrite IH; [reflexivity | intros I; apply N; now right].
Qed.

Lemma set_length_le (k v : string) (m : StepsMap.t) :
  (List.length (StepsMap.set k v m) <= S (List.length m))%nat.
Proof.
  induction m as [|[k' v'] m IH]; simpl.
  - lia.
  - destruct (String.eqb k' k); simpl; lia.
Qed.

Lemma set_present (k v : string) (m : StepsMap.t) :
  In k (StepsMap.keys m) -> StepsMap.keys (StepsMap.set k v m) = StepsMap.keys m.
Proof.
  induction m as [|[k' v'] m IH]; simpl; intros I.
  - contradiction.
  - destruct (String.eqb_spec k' k) as [->|D]; simpl.
    + reflexivity.
    + f_equal. apply IH. destruct I as [E|I]; [congruence | exact I].
Qed.

Lemma get_set_same (k v : string) (m : StepsMap.t) :
  StepsMap.get k (StepsMap.set k v m) = Some v.
Proof.
  induction m as [|[k' v'] m IH]; simpl.
  - now rewrite String.eqb_refl.
  - destruct (String.eqb_spec k' k) as [->|D]; simpl.
    + now rewrite String.eqb_refl.
    + destruct (String.eqb_spec k' k); [contradiction | exact IH].
Qed.

Lemma get_set_other (k k' v : string) (m : StepsMap.t) :
  k <> k' -> StepsMap.get k' (StepsMap.set k v m) = StepsMap.get k' m.
Proof.
  intros D. induction m as [|[k0 v0] m IH]; simpl.
  - destruct (String.eqb_spec k k'); [contradiction | reflexivity].
  - destruct (String.eqb_spec k0 k) as [->|D0]; simpl.
    + destruct (String.eqb_spec k k'); [contradiction | reflexivity].
    + destruct (String.eqb_spec k0 k'); [reflexivity | exact IH].
Qed.

Lemma get_in (k v : string) (m : StepsMap.t) :
  StepsMap.get k m = Some v -> In (k, v) m.
Proof.
  induction m as [|[k' v'] m IH]; simpl; intros G.
  - discriminate.
  - destruct (String.eqb_spec k' k) as [->|D].
    + injection G as ->. now left.
    + right. auto.
Qed.

Lemma set_values (k v : string) (m : StepsMap.t) (Q : string -> Prop) :
  Q v -> Forall (fun kv => Q (snd kv)) m ->
  Forall (fun kv => Q (snd kv)) (StepsMap.set k v m).
Proof.
  intros Hv. induction m as [|[k' v'] m IH]; simpl; intros F.
  - constructor; [exact Hv | constructor].
  - inversion F as [|? ? Hh Ht]; subst.
    destruct (String.eqb k' k); constructor; auto.
Qed.

(** ** The loop: auxiliary facts *)

Section LoopFacts.

Context {num : Type} `{JSNumber num}.

Lemma toFixed_in_range (x : num) (p : Z) :
  0 <= p <= 100 -> toFixed x p = Ok (Number_toFixed x p).
Proof.
  intros R. unfold toFixed.
  destruct (Z.ltb_spec p 0); [lia|].
  destruct (Z.ltb_spec 100 p); [lia|]. reflexivity.
Qed.

Lemma toFixed_out_of_range (x : num) (p : Z) :
  ~ 0 <= p <= 100 -> toFixed x p = Throw RangeError.
Proof.
  intros R. unfold toFixed.
  destruct (Z.ltb_spec p 0); [reflexivity|].
  destruct (Z.ltb_spec 100 p); [reflexivity | lia].
Qed.

Lemma value_in_range (c : Config num) (step : Z) :
  0 <= precision c <= 100 -> value c step = Ok (value_text c step).
Proof.
  intros R.
  unfold value, yIntersect, slopeVw, fsMinFinal, fsMaxFinal.
  rewrite !toFixed_in_range by exact R. simpl.
  unfold value_text, fixed_with_unit.
  now rewrite !append_assoc.
Qed.

Lemma for_steps_in_range (c : Config num) (todo : list Z) (m : StepsMap.t) :
  0 <= precision c <= 100 -> for_steps c todo m = Ok (set_all c todo m).
Proof.
  intros R. revert m.
  induction todo as [|step later IH]; intros m; simpl.
  - reflexivity.
  - rewrite value_in_range by exact R. simpl. apply IH.
Qed.

Lemma for_steps_returns (c : Config num) (todo : list Z) (m m' : StepsMap.t) :
  for_steps c todo m = Ok m' -> m' = set_all c todo m.
Proof.
  destruct todo as [|step later].
  - simpl. now intros [= <-].
  - destruct (Z_le_dec 0 (precision c)) as [L|L];
      [destruct (Z_le_dec (precision c) 100) as [U|U]|].
    + rewrite for_steps_in_range by lia. now intros [= <-].
    + simpl. unfold value at 1, yIntersect.
      rewrite toFixed_out_of_range by lia. discriminate.
    + simpl. unfold value at 1, yIntersect.
      rewrite toFixed_out_of_range by lia. discriminate.
Qed.

Lemma set_all_app (c : Config num) (l1 l2 : list Z) (m : StepsMap.t) :
  set_all c (l1 ++ l2)%list m = set_all c l2 (set_all c l1 m).
Proof. unfold set_all. apply fold_left_app. Qed.

(** Steps with pairwise distinct keys, none of them in the map yet, are
    appended in order. *)
Lemma set_all_fresh (c : Config num) (todo : list Z) (m : StepsMap.t) :
  NoDup (map (key c) todo) ->
  (forall s, In s todo -> ~ In (key c s) (StepsMap.keys m)) ->
  set_all c todo m = (m ++ map (entry c) todo)%list.
Proof.
  revert m. induction todo as [|step later IH]; intros m ND Fr; simpl.
  - now rewrite app_nil_r.
  - inversion ND as [|? ? Hn ND']; subst.
    change (set_all c (step :: later) m)
      with (set_all c later (StepsMap.set (key c step) (value_text c step) m)).
    rewrite set_fresh by (apply Fr; now left).
    rewrite IH.
    + rewrite <- app_assoc. reflexivity.
    + exact ND'.
    + intros s I. unfold StepsMap.keys. rewrite map_app, in_app_iff.
      intros [J|[J|[]]].
      * apply (Fr s); [now right | exact J].
      * simpl in J. apply Hn. rewrite J. now apply in_map.
Qed.

Lemma set_all_length_le (c : Config num) (todo : list Z) (m : StepsMap.t) :
  (List.length (set_all c todo m) <= List.length m + List.length todo)%nat.
Proof.
  revert m. induction todo as [|step later IH]; intros m; simpl.
  - lia.
  - change (set_all c (step :: later) m)
      with (set_all c later (StepsMap.set (key c step) (value_text c step) m)).
    specialize (IH (StepsMap.set (key c step) (value_text c step) m)).
    pose proof (set_length_le (key c step) (value_text c step) m). lia.
Qed.

(** A key keeps the value of the last step that set it. *)
Lemma set_all_get_last (c : Config num) (todo : list Z) (m : StepsMap.t)
      (k v : string) :
  StepsMap.get k m = Some v ->
  (forall s, In s todo -> key c s <> k) ->
  StepsMap.get k (set_all c todo m) = Some v.
Proof.
  revert m. induction todo as [|step later IH]; intros m G D; simpl.
  - exact G.
  - change (set_all c (step :: later) m)
      with (set_all c later (StepsMap.set (key c step) (value_text c step) m)).
    apply IH.
    + rewrite get_set_other; [exact G | apply D; now left].
    + intros s I. apply D. now right.
Qed.

Lemma set_all_keys (c : Config num) (todo : list Z) (m : StepsMap.t) :
  incl (StepsMap.keys (set_all c todo m))
       (StepsMap.keys m ++ map (key c) todo)%list.
Proof.
  revert m. induction todo as [|step later IH]; intros m; simpl.
  - rewrite app_nil_r. apply incl_refl.
  - change (set_all c (step :: later) m)
      with (set_all c later (StepsMap.set (key c step) (value_text c step) m)).
    intros k I. apply IH in I. rewrite in_app_iff in *.
    destruct I as [I|I]; [|right; now right].
    destruct (in_dec string_dec (key c step) (StepsMap.keys m)) as [P|N].
    + rewrite set_present in I by exact P. now left.
    + rewrite set_fresh in I by exact N. unfold StepsMap.keys in I.
      rewrite map_app, in_app_iff in I. destruct I as [I|[I|[]]].
      * now left.
      * right. left. exact I.
Qed.

Lemma set_all_values (c : Config num) (todo : list Z) (m : StepsMap.t)
      (Q : string -> Prop) :
  (forall s, In s todo -> Q (value_text c s)) ->
  Forall (fun kv => Q (snd kv)) m ->
  Forall (fun kv => Q (snd kv)) (set_all c todo m).
Proof.
  revert m. induction todo as [|step later IH]; intros m Hq F; simpl.
  - exact F.
  - change (set_all c (step :: later) m)
      with (set_all c later (StepsMap.set (key c step) (value_text c step) m)).
    apply IH.
    + intros s I. apply Hq. now right.
    + apply set_values; [apply Hq; now left | exact F].
Qed.

End LoopFacts.

(** ** The generator: auxiliary facts *)

Lemma NoDup_map_injective {A B : Type} (f : A -> B) (l : list A) :
  (forall x y, In x l -> In y l -> f x = f y -> x = y) ->
  NoDup l -> NoDup (map f l).
Proof.
  induction l as [|a l IH]; simpl; intros Inj ND.
  - constructor.
  - inversion ND as [|? ? Hn ND']; subst. constructor.
    + rewrite in_map_iff. intros (y & E & I).
      assert (y = a) by (apply Inj; auto). subst. contradiction.
    + apply IH; [intros; apply Inj; auto | exact ND'].
Qed.

Lemma map_nth_seq {A : Type} (d : A) (l : list A) (n : nat) :
  (n <= List.length l)%nat ->
  map (fun i => nth i l d) (seq 0 n) = firstn n l.
Proof.
  revert n. induction l as [|a l IH]; intros n L; simpl in L.
  - assert (n = O) by lia. subst. reflexivity.
  - destruct n as [|n]; [reflexivity|].
    simpl. f_equal. rewrite <- seq_shift, map_map. simpl.
    apply IH. lia.
Qed.

Lemma Z_range_seq (from : nat) (count : nat) :
  Z_range (Z.of_nat from) count = map Z.of_nat (seq from count).
Proof.
  revert from. induction count as [|n IH]; intros from; simpl.
  - reflexivity.
  - f_equal. rewrite <- IH. f_equal. lia.
Qed.

Lemma Z_range_shift (from d : Z) (count : nat) :
  map (fun s => s - d) (Z_range from count) = Z_range (from - d) count.
Proof.
  revert from. induction count as [|n IH]; intros from; simpl.
  - reflexivity.
  - f_equal. rewrite IH. f_equal. lia.
Qed.

Lemma Z_range_In (from : Z) (count : nat) (s : Z) :
  In s (Z_range from count) <-> from <= s < from + Z.of_nat count.
Proof.
  revert from. induction count as [|n IH]; intros from; simpl.
  - lia.
  - rewrite IH. lia.
Qed.

Lemma Z_range_NoDup (from : Z) (count : nat) : NoDup (Z_range from count).
Proof.
  revert from. induction count as [|n IH]; intros from; simpl.
  - constructor.
  - constructor; [rewrite Z_range_In; lia | apply IH].
Qed.

Lemma Z_range_length (from : Z) (count : nat) :
  List.length (Z_range from count) = count.
Proof.
  revert from. induction count as [|n IH]; intros from; simpl; auto.
Qed.

Lemma Z_range_split (from : Z) (count i : nat) :
  (i < count)%nat ->
  Z_range from count =
  (Z_range from i
   ++ (from + Z.of_nat i) :: Z_range (from + Z.of_nat i + 1) (count - i - 1))%list.
Proof.
  revert from count. induction i as [|i IH]; intros from count L.
  - destruct count as [|n]; [lia|]. simpl.
    replace (from + 0) with from by lia.
    now replace (n - 0)%nat with n by lia.
  - destruct count as [|n]; [lia|]. simpl. f_equal.
    rewrite (IH (from + 1) n) by lia.
    replace (from + 1 + Z.of_nat i) with (from + Z.of_nat (S i)) by lia.
    reflexivity.
Qed.

Section GeneratorFacts.

Context {num : Type} `{JSNumber num}.

Lemma steps_as_range (c : Config num) : steps c = Z_range 0 (step_count c).
Proof. unfold steps, step_count. symmetry. apply (Z_range_seq 0). Qed.

Lemma steps_In (c : Config num) (s : Z) :
  In s (steps c) <-> 0 <= s <= maxStep c + minStep c.
Proof. rewrite steps_as_range, Z_range_In. unfold step_count. lia. Qed.

Lemma steps_length (c : Config num) :
  0 <= maxStep c + minStep c + 1 ->
  Z.of_nat (List.length (steps c)) = minStep c + maxStep c + 1.
Proof.
  intros L. rewrite steps_as_range, Z_range_length. unfold step_count. lia.
Qed.

Lemma insufficient_iff (c : Config num) :
  insufficient_suffixes c = true <->
  suffixType c = values
  /\ Z.of_nat (List.length (suffixValues c)) <= minStep c + maxStep c.
Proof.
  unfold insufficient_suffixes. rewrite andb_true_iff, Z.leb_le.
  destruct (suffixType c); simpl; split; intros [A B];
    (split; [congruence || reflexivity | lia]).
Qed.

Lemma valid_sufficient (c : Config num) :
  valid_config c -> insufficient_suffixes c = false.
Proof.
  intros (_ & _ & _ & V).
  destruct (insufficient_suffixes c) eqn:E; [|reflexivity].
  apply insufficient_iff in E. destruct E as [T L]. specialize (V T). lia.
Qed.

(** The conversion touches the four lengths only. *)
Lemma key_convert_units (c : Config num) (s : Z) :
  key (convert_units c) s = key c s.
Proof. unfold convert_units. destruct (unit c); reflexivity. Qed.

Lemma precision_convert_units (c : Config num) :
  precision (convert_units c) = precision c.
Proof. unfold convert_units. destruct (unit c); reflexivity. Qed.

Lemma generate_valid (c : Config num) :
  valid_config c -> precision c <= 100 ->
  generate c = Ok (set_all (convert_units c) (steps c) StepsMap.empty).
Proof.
  intros V B. unfold generate. rewrite (valid_sufficient c V).
  apply for_steps_in_range. rewrite precision_convert_units.
  destruct V as (_ & _ & R & _). lia.
Qed.

(** A precision beyond 100 makes the first iteration throw. *)
Lemma generate_precision_beyond (c : Config num) :
  valid_config c -> 100 < precision c ->
  generate c = Throw RangeError.
Proof.
  intros V B. unfold generate. rewrite (valid_sufficient c V).
  destruct V as (Lo & Hi & _).
  rewrite steps_as_range. unfold step_count.
  destruct (Z.to_nat (maxStep c + minStep c + 1)) as [|n] eqn:E; [lia|].
  simpl. unfold value at 1, yIntersect.
  rewrite toFixed_out_of_range
    by (rewrite precision_convert_units; lia).
  reflexivity.
Qed.

Lemma generate_returns (c : Config num) (m : StepsMap.t) :
  generate c = Ok m ->
  m = set_all (convert_units c) (steps c) StepsMap.empty.
Proof.
  unfold generate. destruct (insufficient_suffixes c); [discriminate|].
  apply for_steps_returns.
Qed.

Lemma key_numbered (c : Config num) (s : Z) :
  suffixType c = numbered ->
  key c s = "--" ++ prefix c ++ string_of_Z (s - (maxStep c - minStep c - 1)).
Proof. intros T. unfold key, power, baseIndex. now rewrite T. Qed.

Lemma key_numbered_inj (c : Config num) (s s' : Z) :
  suffixType c = numbered -> key c s = key c s' -> s = s'.
Proof.
  intros T E. rewrite !key_numbered in E by exact T.
  apply (append_cancel_l "--") in E. apply append_cancel_l in E.
  apply string_of_Z_inj in E. lia.
Qed.

Lemma key_values (c : Config num) (i : nat) :
  suffixType c = values ->
  key c (Z.of_nat i) = "--" ++ prefix c ++ nth i (suffixValues c) "undefined".
Proof.
  intros T. unfold key, index_or_undefined. rewrite T.
  destruct (Z.ltb_spec (Z.of_nat i) 0); [lia|]. now rewrite Nat2Z.id.
Qed.

Lemma keys_values (c : Config num) :
  suffixType c = values ->
  (step_count c <= List.length (suffixValues c))%nat ->
  map (key c) (steps c) =
  map (fun suffix => "--" ++ prefix c ++ suffix)
      (firstn (step_count c) (suffixValues c)).
Proof.
  intros T L. unfold steps. fold (step_count c). rewrite map_map.
  rewrite <- (map_nth_seq "undefined" (suffixValues c) (step_count c) L).
  rewrite map_map. apply map_ext. intros i. now apply key_values.
Qed.

(** The keys of the steps are pairwise distinct: always under [numbered],
    and under [values] when the suffixes used are. *)
Lemma keys_NoDup (c : Config num) :
  (suffixType c = values ->
   (step_count c <= List.length (suffixValues c))%nat
   /\ NoDup (firstn (step_count c) (suffixValues c))) ->
  NoDup (map (key c) (steps c)).
Proof.
  intros D. destruct (suffixType c) eqn:T.
  - apply NoDup_map_injective.
    + intros x y _ _. now apply key_numbered_inj.
    + rewrite steps_as_range. apply Z_range_NoDup.
  - destruct (D eq_refl) as [L ND]. rewrite keys_values by assumption.
    apply NoDup_map_injective; [|exact ND].
    intros x y _ _ E. apply (append_cancel_l "--") in E.
    now apply append_cancel_l in E.
Qed.

Lemma generate_distinct (c : Config num) :
  valid_config c -> precision c <= 100 ->
  (suffixType c = values -> NoDup (firstn (step_count c) (suffixValues c))) ->
  generate c = Ok (map (entry (convert_units c)) (steps c)).
Proof.
  intros V Bd D. rewrite (generate_valid c V Bd). f_equal.
  rewrite set_all_fresh; [reflexivity | | intros s _ []].
  rewrite (map_ext _ (key c)) by apply key_convert_units.
  apply keys_NoDup. intros T. split; [|now apply D].
  destruct V as (A & B & _ & S). specialize (S T). unfold step_count. lia.
Qed.

End GeneratorFacts.

(** ** Configurations used as examples *)

(** The documented defaults with [unit] set to [px]. *)
Definition px_defaults {num} `{JSNumber num} : Config num :=
  Object_assign defaultConfig
    (mkPartial None None None None None None None None
               None None None None None (Some px) None None).

(** Two steps named by the same suffix. *)
Definition repeated_suffix : Config Qc :=
  Object_assign defaultConfig
    (mkPartial None None None None None None (Some 0) (Some 1)
               None None None (Some values) (Some ["sm"; "sm"]) None None None).

(** Three steps, the first and the last named alike. *)
Definition base_lg_base : Config Qc :=
  Object_assign defaultConfig
    (mkPartial None None None None None None (Some 1) (Some 1)
               None None None (Some values) (Some ["base"; "lg"; "base"])
               None None None).

(** Eight suffixes for nine steps. *)
Definition nine_steps : Config Qc :=
  Object_assign defaultConfig
    (mkPartial None None None None None None (Some 3) None
               None None None (Some values) None None None None).

(** ** The claims *)

Section GeneratorClaims.

Context {num : Type} `{JSNumber num}.

(** C1 (amended).  For every valid configuration with a precision of at
    most 100 and every step [s] in
    [0, minStep + maxStep], with [power = s - (maxStep - minStep - 1)] and
    the four lengths divided once by [rootFontSize] under [rem], the loop
    reaches [s] and computes for it the string
    [clamp({fsMinFinal},  {slopeVw}vw + {yIntersect} , {fsMaxFinal})] with
    two blanks after the first comma and one before the second, built from
    [fsMin], [fsMax] and [slope] as written below; the returned map holds that
    string under the step's key whenever no later step has the same key,
    which is always so under [numbered]. *)
Theorem C1_step_expression (c : Config num) (s : Z) :
  valid_config c ->
  precision c <= 100 ->
  0 <= s <= minStep c + maxStep c ->
  let conv := fun x : num =>
                match unit c with
                | rem => (x / rootFontSize c)%js
                | px => x
                end in
  let p := s - (maxStep c - minStep c - 1) in
  let fsMin := (conv (minFontSize c) * Math_pow (minRatio c) (Number_ofZ p))%js in
  let fsMax := (conv (maxFontSize c) * Math_pow (maxRatio c) (Number_ofZ p))%js in
  let sl := ((fsMax - fsMin)
             / (conv (maxScreenWidth c) - conv (minScreenWidth c)))%js in
  let u := Unit_toString (unit c) in
  let rounded := fun x : num => Number_toFixed x (precision c) in
  let expression :=
    "clamp(" ++ rounded fsMin ++ u ++ ",  "
    ++ rounded (sl * Number_ofZ 100)%js ++ "vw + "
    ++ rounded (fsMin - sl * conv (minScreenWidth c))%js ++ u
    ++ " , " ++ rounded fsMax ++ u ++ ")" in
  In s (steps c)
  /\ value (convert_units c) s = Ok expression
  /\ exists m,
      generate c = Ok m
      /\ ((forall s', s < s' <= minStep c + maxStep c -> key c s' <> key c s) ->
          StepsMap.get (key c s) m = Some expression)
      /\ (suffixType c = numbered ->
          StepsMap.get (key c s) m = Some expression).
Proof.
  intros V B R conv p fsMin fsMax sl u rounded expression.
  assert (Pr : 0 <= precision (convert_units c) <= 100)
    by (rewrite precision_convert_units; destruct V as (_ & _ & ? & _); lia).
  assert (Ht : value_text (convert_units c) s = expression).
  { unfold expression, value_text, fixed_with_unit, slope,
      fsMinSize, fsMaxSize, minStepRatio, maxStepRatio, power, baseIndex,
      convert_units, toRem, rounded, u, sl, fsMin, fsMax, conv, p.
    destruct (unit c) eqn:U; simpl; rewrite ?U; simpl;
      rewrite ?append_assoc; reflexivity. }
  assert (Hv : value (convert_units c) s = Ok expression).
  { rewrite value_in_range by exact Pr. now rewrite Ht. }
  assert (Hget : (forall s', s < s' <= minStep c + maxStep c ->
                             key c s' <> key c s) ->
                 StepsMap.get (key c s)
                   (set_all (convert_units c) (steps c) StepsMap.empty)
                 = Some expression).
  { intros Later. rewrite steps_as_range.
    rewrite (Z_range_split 0 (step_count c) (Z.to_nat s))
      by (unfold step_count; lia).
    rewrite set_all_app. simpl. rewrite Z2Nat.id by lia.
    set (m1 := set_all (convert_units c) (Z_range 0 (Z.to_nat s)) StepsMap.empty).
    change (set_all (convert_units c) (s :: ?l) m1)
      with (set_all (convert_units c) l
              (StepsMap.set (key (convert_units c) s)
                            (value_text (convert_units c) s) m1)).
    apply set_all_get_last.
    - rewrite key_convert_units, Ht. apply get_set_same.
    - intros s' I. rewrite key_convert_units. apply Later.
      apply Z_range_In in I. unfold step_count in I. lia. }
  split; [apply steps_In; lia|]. split; [exact Hv|].
  eexists. split; [apply (generate_valid c V B)|]. split; [exact Hget|].
  intros T. apply Hget. intros s' L E.
  apply key_numbered_inj in E; [lia | exact T].
Qed.

(** C2 (amended).  For every valid configuration with a precision of at
    most 100, [generate] returns a map; it has at most
    [minStep + maxStep + 1] entries, and exactly
    that many under [numbered], or under [values] when the first
    [minStep + maxStep + 1] suffixes are pairwise distinct. *)
Theorem C2_entry_count (c : Config num) :
  valid_config c ->
  precision c <= 100 ->
  exists m,
    generate c = Ok m
    /\ StepsMap.size m <= minStep c + maxStep c + 1
    /\ ((suffixType c = values ->
         NoDup (firstn (step_count c) (suffixValues c))) ->
        StepsMap.size m = minStep c + maxStep c + 1).
Proof.
  intros V Bd. eexists. split; [apply (generate_valid c V Bd)|].
  destruct V as (A & B & Pr & S). split.
  - unfold StepsMap.size.
    pose proof (set_all_length_le (convert_units c) (steps c) StepsMap.empty) as L.
    pose proof (steps_length c ltac:(lia)) as E. simpl in L.
    unfold StepsMap.empty in *. lia.
  - intros D.
    pose proof (generate_distinct c (conj A (conj B (conj Pr S))) Bd D) as G.
    rewrite (generate_valid c (conj A (conj B (conj Pr S))) Bd) in G.
    injection G as ->. unfold StepsMap.size. rewrite length_map.
    apply steps_length. lia.
Qed.

(** C3.  [generate] throws the configuration error exactly when
    [suffixType] is [values] and there are at most [minStep + maxStep]
    suffixes.  The message shows the required count
    [minStep + maxStep + 1], the number of suffixes and the whole list,
    and the throw precedes everything else: whatever the unit, the
    precision, the lengths and the ratios are, the outcome is that same
    error, and no map is returned. *)
Theorem C3_configuration_error (c : Config num) :
  ((exists message, generate c = Throw (ConfigurationError message))
   <-> suffixType c = values
       /\ Z.of_nat (List.length (suffixValues c)) <= minStep c + maxStep c)
  /\ (suffixType c = values ->
      Z.of_nat (List.length (suffixValues c)) <= minStep c + maxStep c ->
      generate c =
      Throw (ConfigurationError
               ("Insufficient suffixes passed." ++ nl
                ++ "Number of steps: " ++ string_of_Z (minStep c)
                ++ "(minstep) + " ++ string_of_Z (maxStep c)
                ++ "(maxStep) + 1(baseStep) = "
                ++ string_of_Z (minStep c + maxStep c + 1) ++ nl
                ++ "Number of suffixes: "
                ++ string_of_Z (Z.of_nat (List.length (suffixValues c))) ++ nl
                ++ "Current suffix list: " ++ join "," (suffixValues c) ++ nl))
      /\ forall c' : Config num,
          suffixType c' = suffixType c ->
          suffixValues c' = suffixValues c ->
          minStep c' = minStep c ->
          maxStep c' = maxStep c ->
          generate c' = generate c).
Proof.
  split; [split|].
  - intros [message G]. apply insufficient_iff. unfold generate in G.
    destruct (insufficient_suffixes c) eqn:E; [reflexivity|].
    exfalso. revert G. generalize StepsMap.empty.
    induction (steps c) as [|step later IH]; intros m G; simpl in G.
    + discriminate.
    + unfold value at 1, yIntersect, slopeVw, fsMinFinal, fsMaxFinal, toFixed in G.
      destruct ((precision (convert_units c) <? 0)
                || (100 <? precision (convert_units c)))%bool;
        simpl in G; [discriminate | eauto].
  - intros I. apply insufficient_iff in I. unfold generate. rewrite I.
    eauto.
  - intros T L.
    assert (I : insufficient_suffixes c = true)
      by (apply insufficient_iff; auto).
    split.
    + unfold generate. rewrite I. reflexivity.
    + intros c' E1 E2 E3 E4.
      assert (I' : insufficient_suffixes c' = true)
        by (apply insufficient_iff; rewrite E1, E2, E3, E4; auto).
      unfold generate. rewrite I, I'.
      unfold insufficient_message, Array_toString.
      now rewrite E2, E3, E4.
Qed.

(** C4 (amended).  For every valid configuration with a precision of at
    most 100 whose step keys are pairwise distinct (always so under [numbered]; under [values] when the
    first [minStep + maxStep + 1] suffixes are), the entries of the map
    are those of the steps [0, 1, ..., minStep + maxStep] in ascending
    order.  Under [numbered] the keys are [--{prefix}{power}] for the
    powers from [-baseIndex] upwards, and no key occurs twice; under
    [values] they are [--{prefix}{suffix}] for the first
    [minStep + maxStep + 1] suffixes in their order. *)
Theorem C4_entry_order (c : Config num) :
  valid_config c ->
  precision c <= 100 ->
  (suffixType c = values ->
   NoDup (firstn (step_count c) (suffixValues c))) ->
  exists m,
    generate c = Ok m
    /\ m = map (entry (convert_units c)) (Z_range 0 (step_count c))
    /\ Z.of_nat (step_count c) = minStep c + maxStep c + 1
    /\ (suffixType c = numbered ->
        StepsMap.keys m =
        map (fun p => "--" ++ prefix c ++ string_of_Z p)
            (Z_range (- (maxStep c - minStep c - 1)) (step_count c))
        /\ NoDup (StepsMap.keys m))
    /\ (suffixType c = values ->
        StepsMap.keys m =
        map (fun suffix => "--" ++ prefix c ++ suffix)
            (firstn (step_count c) (suffixValues c))).
Proof.
  intros V Bd D. eexists. split; [apply (generate_distinct c V Bd D)|].
  rewrite steps_as_range.
  assert (K : StepsMap.keys
                (map (entry (convert_units c)) (Z_range 0 (step_count c)))
              = map (key c) (steps c)).
  { unfold StepsMap.keys. rewrite map_map, steps_as_range. apply map_ext.
    intros s. simpl. apply key_convert_units. }
  split; [reflexivity|]. split.
  { unfold step_count. destruct V as (A & B & _). lia. }
  split.
  - intros T. rewrite K. split.
    + rewrite steps_as_range.
      rewrite <- (Z_range_shift 0 (maxStep c - minStep c - 1)), map_map.
      apply map_ext. intros s. now apply key_numbered.
    + apply keys_NoDup. intros T'. congruence.
  - intros T. rewrite K. apply keys_values; [exact T|].
    destruct V as (A & B & _ & S). specialize (S T). unfold step_count. lia.
Qed.

End GeneratorClaims.

(** ** The substitution engine: auxiliary facts *)

(** Induction on document nodes, with the hypothesis for every child. *)
Fixpoint node_ind_nested (Q : node -> Prop)
  (Hdecl : forall p v, Q (decl p v))
  (Hcomment : forall t, Q (comment t))
  (Hrule : forall s ns, Forall Q ns -> Q (rule s ns))
  (Hatrule : forall a ps ns, Forall Q ns -> Q (atrule a ps ns))
  (n : node) : Q n :=
  let children :=
    fix children (l : list node) : Forall Q l :=
      match l with
      | [] => Forall_nil Q
      | x :: rest =>
          Forall_cons x
            (node_ind_nested Q Hdecl Hcomment Hrule Hatrule x) (children rest)
      end in
  match n with
  | decl p v => Hdecl p v
  | comment t => Hcomment t
  | rule s ns => Hrule s ns (children ns)
  | atrule a ps ns => Hatrule a ps ns (children ns)
  end.

(** Induction on value nodes, with the hypothesis for every argument. *)
Fixpoint vnode_ind_nested (Q : vnode -> Prop)
  (Hword : forall w, Q (word w))
  (Hstring : forall w, Q (vstring w))
  (Hdiv : forall w, Q (div w))
  (Hspace : forall w, Q (space w))
  (Hcomment : forall w, Q (vcomment w))
  (Hrange : forall w, Q (unicode_range w))
  (Hfunc : forall w ns, Forall Q ns -> Q (func w ns))
  (n : vnode) : Q n :=
  let arguments :=
    fix arguments (l : list vnode) : Forall Q l :=
      match l with
      | [] => Forall_nil Q
      | x :: rest =>
          Forall_cons x
            (vnode_ind_nested Q Hword Hstring Hdiv Hspace Hcomment Hrange
                              Hfunc x)
            (arguments rest)
      end in
  match n with
  | word w => Hword w
  | vstring w => Hstring w
  | div w => Hdiv w
  | space w => Hspace w
  | vcomment w => Hcomment w
  | unicode_range w => Hrange w
  | func w ns => Hfunc w ns (arguments ns)
  end.

Lemma walkComments_app (callback : string -> option (list node))
      (l1 l2 : list node) :
  walkComments callback (l1 ++ l2)%list
  = (walkComments callback l1 ++ walkComments callback l2)%list.
Proof. unfold walkComments. apply flat_map_app. Qed.

Lemma walkComments_cons (callback : string -> option (list node))
      (before : list node) (n : node) (after : list node) :
  walkComments callback (before ++ n :: after)%list
  = (walkComments callback before ++ walkComments_node callback n
     ++ walkComments callback after)%list.
Proof. rewrite walkComments_app. reflexivity. Qed.

(** A walk that meets no comment for which the callback answers leaves the
    nodes as they are. *)
Lemma walkComments_unmentioned (directive : string) (replacement : list node)
      (n : node) :
  mentions directive n = false ->
  walkComments_node
    (fun text => if String.eqb text directive then Some replacement else None) n
  = [n].
Proof.
  induction n as [p v|t|s ns IH|a ps ns IH] using node_ind_nested;
    simpl; intros M.
  - reflexivity.
  - now rewrite M.
  - do 2 f_equal. induction ns as [|x ns IHns]; simpl in *; [reflexivity|].
    apply orb_false_iff in M. destruct M as [Mx Mns].
    inversion IH as [|? ? Hx Hns]; subst.
    rewrite (Hx Mx). simpl. f_equal. now apply IHns.
  - do 2 f_equal. induction ns as [|x ns IHns]; simpl in *; [reflexivity|].
    apply orb_false_iff in M. destruct M as [Mx Mns].
    inversion IH as [|? ? Hx Hns]; subst.
    rewrite (Hx Mx). simpl. f_equal. now apply IHns.
Qed.

Lemma last_cons_default {A : Type} (a : A) (l : list A) (d : A) :
  last (a :: l) d = last l a.
Proof.
  revert a d. induction l as [|b l IH]; intros a d.
  - reflexivity.
  - change (last (a :: b :: l) d) with (last (b :: l) d).
    now rewrite (IH b d), (IH b a).
Qed.

Lemma last_app_default {A : Type} (l1 l2 : list A) (d : A) :
  last (l1 ++ l2) d = last l2 (last l1 d).
Proof.
  revert d. induction l1 as [|a l1 IH]; intros d.
  - reflexivity.
  - change ((a :: l1) ++ l2)%list with (a :: (l1 ++ l2))%list.
    now rewrite !last_cons_default, IH.
Qed.

Lemma matches_app (m : StepsMap.t) (l1 l2 : list string) :
  matches m (l1 ++ l2) = (matches m l1 ++ matches m l2)%list.
Proof.
  induction l1 as [|w l1 IH]; simpl.
  - reflexivity.
  - destruct (StepsMap.get w m); simpl; now rewrite IH.
Qed.

Section WalkFacts.

Variable P : Plugin.

(** Every expression in the map is a non-empty string. *)
Hypothesis expressions_truthy :
  Forall (fun kv => snd kv <> "") (stepsMap P).

Lemma replace_word_word (w v : string) :
  replace_word P (word w) v = last (matches (stepsMap P) [w]) v.
Proof.
  simpl. destruct (StepsMap.get w (stepsMap P)) as [e|] eqn:G; simpl.
  - apply get_in in G. rewrite Forall_forall in expressions_truthy.
    apply expressions_truthy in G. simpl in G.
    apply truthy_nonempty in G. now rewrite G.
  - reflexivity.
Qed.

Lemma walk_vnode_last (n : vnode) :
  forall v,
    walk_vnode (replace_word P) n v
    = last (matches (stepsMap P) (word_tokens_of n)) v.
Proof.
  induction n as [w|w|w|w|w|w|w ns IH] using vnode_ind_nested; intros v;
    try reflexivity.
  - apply replace_word_word.
  - simpl. revert v.
    induction ns as [|x ns IHns]; intros v; simpl; [reflexivity|].
    inversion IH as [|? ? Hx Hns]; subst.
    rewrite matches_app, last_app_default, <- (Hx v). now apply IHns.
Qed.

Lemma walk_last (parsed : list vnode) (v : string) :
  walk (replace_word P) parsed v
  = last (matches (stepsMap P) (word_tokens parsed)) v.
Proof.
  unfold walk, word_tokens. revert v.
  induction parsed as [|x parsed IH]; intros v; simpl; [reflexivity|].
  rewrite matches_app, last_app_default, <- walk_vnode_last. apply IH.
Qed.

End WalkFacts.

Lemma value_text_nonempty {num} `{JSNumber num} (c : Config num) (s : Z) :
  value_text c s <> "".
Proof. unfold value_text. simpl. discriminate. Qed.

Lemma plugin_body_returns {num} `{JSNumber num} (c : Config num) (P : Plugin) :
  plugin_body c = Ok P ->
  generate c = Ok (stepsMap P)
  /\ plugin_replaceInline P = replaceInline c
  /\ plugin_generatorDirective P = generatorDirective c
  /\ plugin_prefix P = prefix c.
Proof.
  unfold plugin_body. destruct (generate c) as [m|e]; simpl; [|discriminate].
  intros [= <-]. simpl. auto.
Qed.

Lemma generated_truthy {num} `{JSNumber num} (c : Config num) (m : StepsMap.t) :
  generate c = Ok m -> Forall (fun kv => snd kv <> "") m.
Proof.
  intros G. apply generate_returns in G. subst m.
  apply (set_all_values _ _ _ (fun v => v <> "")).
  - intros s _. apply value_text_nonempty.
  - constructor.
Qed.

(** ** The [Rule] visitor over a document *)

(** The pass of PostCSS over a document, as far as the [Rule] visitor goes:
    the plugin registers visitors for rules and declarations only, so the
    visitor is called on the rules, and a comment that is in no rule is
    passed to nothing.  The walk started at a rule reaches everything below
    it, the rules and at-rules in it included; an at-rule that is in no rule
    is only searched for rules. *)
Fixpoint visit_rules (P : Plugin) (n : node) : node :=
  match n with
  | rule selector nodes => rule selector (Rule P selector nodes)
  | atrule name params nodes => atrule name params (map (visit_rules P) nodes)
  | _ => n
  end.

(** The document, the children of the root, after the pass. *)
Definition process (P : Plugin) (document : list node) : list node :=
  map (visit_rules P) document.

(** The visitor changes no rule in or below the node: calling it again, on
    any rule and in any order, leaves the node as it is. *)
Fixpoint settled (P : Plugin) (n : node) : Prop :=
  let all :=
    fix all (l : list node) : Prop :=
      match l with
      | [] => True
      | x :: rest => settled P x /\ all rest
      end in
  match n with
  | rule selector nodes => Rule P selector nodes = nodes /\ all nodes
  | atrule _ _ nodes => all nodes
  | _ => True
  end.

Lemma fontVars_unmentioned (P : Plugin) (directive : string) :
  existsb (mentions directive) (fontVars P) = false.
Proof.
  unfold fontVars. induction (stepsMap P) as [|kv m IH]; simpl; auto.
Qed.

Lemma walkComments_unchanged (directive : string) (replacement : list node)
      (nodes : list node) :
  existsb (mentions directive) nodes = false ->
  walkComments
    (fun text => if String.eqb text directive then Some replacement else None)
    nodes
  = nodes.
Proof.
  induction nodes as [|x nodes IH]; simpl; intros M; [reflexivity|].
  apply orb_false_iff in M. destruct M as [Mx Mns].
  rewrite (walkComments_unmentioned _ _ x Mx). simpl. f_equal. now apply IH.
Qed.

(** After the walk no comment with the directive is left, provided the
    replacement has none. *)
Lemma walkComments_node_clears (directive : string) (replacement : list node)
      (n : node) :
  existsb (mentions directive) replacement = false ->
  existsb (mentions directive)
    (walkComments_node
       (fun text => if String.eqb text directive then Some replacement else None)
       n)
  = false.
Proof.
  intros R.
  induction n as [p v|t|s ns IH|a ps ns IH] using node_ind_nested; simpl.
  - reflexivity.
  - destruct (String.eqb t directive) eqn:E; simpl; [exact R|].
    now rewrite E.
  - rewrite orb_false_r.
    induction ns as [|x ns IHns]; simpl; [reflexivity|].
    inversion IH as [|? ? Hx Hns]; subst.
    rewrite existsb_app, Hx. simpl. now apply IHns.
  - rewrite orb_false_r.
    induction ns as [|x ns IHns]; simpl; [reflexivity|].
    inversion IH as [|? ? Hx Hns]; subst.
    rewrite existsb_app, Hx. simpl. now apply IHns.
Qed.

Lemma walkComments_clears (directive : string) (replacement : list node)
      (nodes : list node) :
  existsb (mentions directive) replacement = false ->
  existsb (mentions directive)
    (walkComments
       (fun text => if String.eqb text directive then Some replacement else None)
       nodes)
  = false.
Proof.
  intros R. unfold walkComments.
  induction nodes as [|x nodes IH]; simpl; [reflexivity|].
  now rewrite existsb_app, walkComments_node_clears, IH.
Qed.


Lemma settled_rule (P : Plugin) (selector : string) (nodes : list node) :
  settled P (rule selector nodes)
  <-> Rule P selector nodes = nodes /\ Forall (settled P) nodes.
Proof.
  simpl. apply and_iff_compat_l.
  induction nodes as [|x nodes IH]; simpl.
  - split; [constructor | trivial].
  - rewrite IH. split.
    + intros [Hx Hn]. now constructor.
    + intros F. inversion F. now split.
Qed.

Lemma settled_atrule (P : Plugin) (name params : string) (nodes : list node) :
  settled P (atrule name params nodes) <-> Forall (settled P) nodes.
Proof.
  simpl. induction nodes as [|x nodes IH]; simpl.
  - split; [constructor | trivial].
  - rewrite IH. split.
    + intros [Hx Hn]. now constructor.
    + intros F. inversion F. now split.
Qed.

Lemma unmentioned_each (directive : string) (nodes : list node) :
  existsb (mentions directive) nodes = false ->
  Forall (fun n => mentions directive n = false) nodes.
Proof.
  induction nodes as [|x nodes IH]; simpl; intros M; [constructor|].
  apply orb_false_iff in M. destruct M. constructor; auto.
Qed.

(** A node without the directive is settled. *)
Lemma unmentioned_settled (P : Plugin) (n : node) :
  mentions (plugin_generatorDirective P) n = false -> settled P n.
Proof.
  induction n as [p v|t|s ns IH|a ps ns IH] using node_ind_nested; intros M.
  - exact I.
  - exact I.
  - apply settled_rule. simpl in M. split.
    + unfold Rule. destruct (plugin_replaceInline P); [reflexivity|].
      now apply walkComments_unchanged.
    + apply unmentioned_each in M. rewrite Forall_forall in *.
      intros x Ix. apply IH; auto.
  - apply settled_atrule. simpl in M.
    apply unmentioned_each in M. rewrite Forall_forall in *.
    intros x Ix. apply IH; auto.
Qed.

(** With [replaceInline] on every node is settled. *)
Lemma inline_settled (P : Plugin) (n : node) :
  plugin_replaceInline P = true -> settled P n.
Proof.
  intros On.
  induction n as [p v|t|s ns IH|a ps ns IH] using node_ind_nested.
  - exact I.
  - exact I.
  - apply settled_rule. split; [unfold Rule; now rewrite On | exact IH].
  - apply settled_atrule. exact IH.
Qed.

Lemma visit_rules_settled (P : Plugin) (n : node) :
  settled P (visit_rules P n).
Proof.
  destruct (plugin_replaceInline P) eqn:Mode; [now apply inline_settled|].
  induction n as [p v|t|s ns IH|a ps ns IH] using node_ind_nested.
  - exact I.
  - exact I.
  - change (visit_rules P (rule s ns)) with (rule s (Rule P s ns)).
    apply settled_rule.
    assert (C : existsb (mentions (plugin_generatorDirective P))
                        (Rule P s ns) = false).
    { unfold Rule. rewrite Mode.
      apply walkComments_clears, fontVars_unmentioned. }
    split.
    + unfold Rule at 1. rewrite Mode. now apply walkComments_unchanged.
    + apply unmentioned_each in C. rewrite Forall_forall in *.
      intros x Ix. apply unmentioned_settled. auto.
  - change (visit_rules P (atrule a ps ns))
      with (atrule a ps (map (visit_rules P) ns)).
    apply settled_atrule. rewrite Forall_forall in *.
    intros x Ix. apply in_map_iff in Ix. destruct Ix as (y & <- & Iy). auto.
Qed.

Lemma visit_rules_unmentioned (P : Plugin) (n : node) :
  mentions (plugin_generatorDirective P) n = false -> visit_rules P n = n.
Proof.
  induction n as [p v|t|s ns IH|a ps ns IH] using node_ind_nested; intros M.
  - reflexivity.
  - reflexivity.
  - simpl. f_equal. unfold Rule.
    destruct (plugin_replaceInline P); [reflexivity|].
    now apply walkComments_unchanged.
  - simpl. f_equal. simpl in M. apply unmentioned_each in M.
    rewrite Forall_forall in *.
    rewrite <- (map_id ns) at 2. apply map_ext_in. intros x Ix. auto.
Qed.

Lemma visit_rules_inline (P : Plugin) (n : node) :
  plugin_replaceInline P = true -> visit_rules P n = n.
Proof.
  intros On.
  induction n as [p v|t|s ns IH|a ps ns IH] using node_ind_nested.
  - reflexivity.
  - reflexivity.
  - simpl. unfold Rule. now rewrite On.
  - simpl. f_equal. rewrite Forall_forall in IH.
    rewrite <- (map_id ns) at 2. apply map_ext_in. intros x Ix. auto.
Qed.

Lemma process_cons (P : Plugin) (before : list node) (n : node)
      (after : list node) :
  process P (before ++ n :: after)%list
  = (process P before ++ visit_rules P n :: process P after)%list.
Proof. unfold process. now rewrite map_app. Qed.

(** ** The claims on substitution *)

(** C5 (amended).  With [replaceInline] off, every comment in or below a
    rule whose text is exactly the directive is replaced by one declaration
    per entry of the steps map, in the map's order, with the key as property
    and the expression as value; comments with another text and declarations
    stay, and the rules and at-rules in the rule are treated alike inside.
    In the document the visitor is called on the rules: a comment that is in
    no rule, at the top level or directly in a top-level at-rule, stays
    whatever its text is; a document without the directive is unchanged, and
    after the pass the visitor changes no rule any more.  With
    [replaceInline] on the document is unchanged. *)
Theorem C5_directive_expansion (P : Plugin) :
  (plugin_replaceInline P = false ->
   (forall selector before after,
       Rule P selector
            (before ++ comment (plugin_generatorDirective P) :: after)%list
       = (Rule P selector before
          ++ map (fun kv => decl (fst kv) (snd kv)) (stepsMap P)
          ++ Rule P selector after)%list)
   /\ (forall selector text before after,
          text <> plugin_generatorDirective P ->
          Rule P selector (before ++ comment text :: after)%list
          = (Rule P selector before ++ comment text
             :: Rule P selector after)%list)
   /\ (forall selector p v before after,
          Rule P selector (before ++ decl p v :: after)%list
          = (Rule P selector before ++ decl p v :: Rule P selector after)%list)
   /\ (forall selector s inner before after,
          Rule P selector (before ++ rule s inner :: after)%list
          = (Rule P selector before ++ rule s (Rule P s inner)
             :: Rule P selector after)%list)
   /\ (forall selector a ps inner before after,
          Rule P selector (before ++ atrule a ps inner :: after)%list
          = (Rule P selector before ++ atrule a ps (Rule P selector inner)
             :: Rule P selector after)%list)
   /\ (forall s inner before after,
          process P (before ++ rule s inner :: after)%list
          = (process P before ++ rule s (Rule P s inner)
             :: process P after)%list)
   /\ (forall a ps inner before after,
          process P (before ++ atrule a ps inner :: after)%list
          = (process P before ++ atrule a ps (process P inner)
             :: process P after)%list)
   /\ (forall text before after,
          process P (before ++ comment text :: after)%list
          = (process P before ++ comment text :: process P after)%list)
   /\ (forall p v before after,
          process P (before ++ decl p v :: after)%list
          = (process P before ++ decl p v :: process P after)%list)
   /\ (forall document,
          existsb (mentions (plugin_generatorDirective P)) document = false ->
          process P document = document)
   /\ (forall document, Forall (settled P) (process P document)))
  /\ (plugin_replaceInline P = true ->
      forall document, process P document = document).
Proof.
  split; intros Mode.
  - assert (R : forall selector nodes,
               Rule P selector nodes
               = walkComments
                   (fun text =>
                      if String.eqb text (plugin_generatorDirective P)
                      then Some (fontVars P)
                      else None)
                   nodes)
      by (intros; unfold Rule; now rewrite Mode).
    split.
    { intros. rewrite !R, walkComments_cons. simpl.
      now rewrite String.eqb_refl. }
    split.
    { intros selector text before after D.
      rewrite !R, walkComments_cons. simpl.
      destruct (String.eqb_spec text (plugin_generatorDirective P));
        [contradiction | reflexivity]. }
    split; [intros; rewrite !R, walkComments_cons; reflexivity|].
    split; [intros; rewrite !R, walkComments_cons; reflexivity|].
    split; [intros; rewrite !R, walkComments_cons; reflexivity|].
    split; [intros; apply process_cons|].
    split; [intros; apply process_cons|].
    split; [intros; apply process_cons|].
    split; [intros; apply process_cons|].
    split.
    { intros document M. apply unmentioned_each in M.
      unfold process. rewrite <- (map_id document) at 2.
      apply map_ext_in. intros x Ix. rewrite Forall_forall in M.
      apply visit_rules_unmentioned. auto. }
    intros document. apply Forall_forall. intros x Ix.
    unfold process in Ix. apply in_map_iff in Ix.
    destruct Ix as (y & <- & _). apply visit_rules_settled.
  - intros document. unfold process. rewrite <- (map_id document) at 2.
    apply map_ext. intros x. now apply visit_rules_inline.
Qed.

(** C6.  For a plugin built from the configuration, the [Declaration] visitor
    leaves a value that does not contain the prefix, and every value when
    [replaceInline] is off; otherwise the value becomes the expression of the
    last word token that is a key of the steps map, and stays as it is when
    no word token is a key.  In particular [var(--font-size-0)] becomes the
    whole expression stored under [--font-size-0]. *)
Theorem C6_inline_replacement {num} `{JSNumber num}
        (valueParser : string -> list vnode) (c : Config num) (P : Plugin)
        (prop v : string) :
  plugin_body c = Ok P ->
  Declaration valueParser P prop v
  = (if replaceInline c && includes v (prefix c)
     then last (matches (stepsMap P) (word_tokens (valueParser v))) v
     else v)
  /\ (replaceInline c = true ->
      prefix c = "font-size-" ->
      valueParser "var(--font-size-0)" = [func "var" [word "--font-size-0"]] ->
      forall e,
        StepsMap.get "--font-size-0" (stepsMap P) = Some e ->
        Declaration valueParser P "color" "var(--font-size-0)" = e).
Proof.
  intros B. destruct (plugin_body_returns c P B) as (G & Ri & _ & Pr).
  pose proof (generated_truthy c _ G) as T.
  assert (D : forall p' v',
             Declaration valueParser P p' v'
             = (if replaceInline c && includes v' (prefix c)
                then last (matches (stepsMap P) (word_tokens (valueParser v'))) v'
                else v')).
  { intros p' v'. unfold Declaration. rewrite Ri, Pr.
    destruct (replaceInline c && includes v' (prefix c)); [|reflexivity].
    now apply walk_last. }
  split; [apply D|].
  intros Ron Pre Parse e Ge. rewrite D, Ron, Pre, Parse.
  simpl. now rewrite Ge.
Qed.

(** ** The claims on particular configurations *)

(** The options [{ minStep: 3 }]. *)
Definition only_minStep_3 {num} : PartialConfig num :=
  mkPartial None None None None None None (Some 3) None
            None None None None None None None None.

(** C7 (amended).  With the documented defaults and [unit] set to [px], the
    base index is [2], the powers run from [-2] to [5], and [generate]
    returns eight entries whose keys are [--font-size--2] through
    [--font-size-5]; every value has the shape
    [clamp(<num>px,  <num>vw + <num>px , <num>px)], blanks included, each
    number printed with two digits. *)
Theorem C7_px_defaults {num} `{JSNumber num} :
  exists m,
    generate (num := num) px_defaults = Ok m
    /\ baseIndex (num := num) px_defaults = 2
    /\ map (power (num := num) px_defaults) (steps (num := num) px_defaults)
       = [-2; -1; 0; 1; 2; 3; 4; 5]
    /\ StepsMap.keys m
       = ["--font-size--2"; "--font-size--1"; "--font-size-0"; "--font-size-1";
          "--font-size-2"; "--font-size-3"; "--font-size-4"; "--font-size-5"]
    /\ StepsMap.size m = 8
    /\ Forall
         (fun kv =>
            exists a b c d : num,
              snd kv
              = "clamp(" ++ Number_toFixed a 2 ++ "px,  "
                ++ Number_toFixed b 2 ++ "vw + "
                ++ Number_toFixed c 2 ++ "px , "
                ++ Number_toFixed d 2 ++ "px)")
         m.
Proof.
  eexists. split.
  - apply generate_distinct.
    + unfold valid_config. simpl. repeat split; lia.
    + simpl. lia.
    + discriminate.
  - repeat split.
    simpl.
    repeat (apply Forall_cons;
            [unfold entry, value_text, fixed_with_unit; simpl;
             rewrite ?append_assoc; simpl; do 4 eexists; reflexivity|]).
    apply Forall_nil.
Qed.

(** C8 (what the code does).  After a call with [{ minStep: 3 }], a call with
    no options resolves [minStep] to [3] and builds nine entries, whereas a
    call with no options on fresh defaults resolves it to [2] and builds
    eight. *)
Theorem C8_shared_defaults {num} `{JSNumber num} :
  let second := plugin_twice (num := num) only_minStep_3 no_opts defaultConfig in
  let alone := plugin (num := num) no_opts defaultConfig in
  minStep (snd second) = 3
  /\ minStep (snd alone) = 2
  /\ exists P Q,
      fst second = Ok P /\ fst alone = Ok Q
      /\ StepsMap.size (stepsMap P) = 9
      /\ StepsMap.size (stepsMap Q) = 8
      /\ hd_error (StepsMap.keys (stepsMap P)) = Some "--font-size--1"
      /\ hd_error (StepsMap.keys (stepsMap Q)) = Some "--font-size--2".
Proof.
  cbv zeta. split; [reflexivity|]. split; [reflexivity|].
  unfold plugin_twice, plugin, plugin_body.
  cbn [fst snd].
  rewrite !generate_distinct;
    try discriminate;
    try (unfold valid_config; cbn; repeat split; (lia || congruence)).
  cbn [bind]. do 2 eexists.
  split; [reflexivity|]. split; [reflexivity|]. cbn [stepsMap].
  split; [vm_compute; reflexivity|].
  split; [vm_compute; reflexivity|].
  split; vm_compute; reflexivity.
Qed.

(** The value that the loop leaves under the key of a step that no later
    step sets again. *)
Lemma set_all_get_step {num} `{JSNumber num} (c : Config num) (s : Z) :
  0 <= s <= minStep c + maxStep c ->
  (forall s', s < s' <= minStep c + maxStep c -> key c s' <> key c s) ->
  StepsMap.get (key c s) (set_all (convert_units c) (steps c) StepsMap.empty)
  = Some (value_text (convert_units c) s).
Proof.
  intros R Later. rewrite steps_as_range.
  rewrite (Z_range_split 0 (step_count c) (Z.to_nat s))
    by (unfold step_count; lia).
  rewrite set_all_app. simpl. rewrite Z2Nat.id by lia.
  set (m1 := set_all (convert_units c) (Z_range 0 (Z.to_nat s)) StepsMap.empty).
  change (set_all (convert_units c) (s :: ?l) m1)
    with (set_all (convert_units c) l
            (StepsMap.set (key (convert_units c) s)
                          (value_text (convert_units c) s) m1)).
  apply set_all_get_last.
  - rewrite key_convert_units. apply get_set_same.
  - intros s' I. rewrite key_convert_units. apply Later.
    apply Z_range_In in I. unfold step_count in I. lia.
Qed.

(** C9 (amended).  For every valid configuration with a precision of at most
    100 that has a step of power [0], the step [maxStep - minStep - 1], the
    loop reaches that step, and there [fsMinFinal] is [minFontSize] (divided
    by [rootFontSize] under [rem]) printed by [toFixed] with [precision]
    digits and followed by the unit, and [fsMaxFinal] is [maxFontSize]
    treated alike.  The expression built for the step starts with the one
    and ends with the other, and the map that [generate] returns holds this
    expression under the step's key whenever no later step has the same
    key, which is always so under [numbered], where the key is
    [--{prefix}0]. *)
Theorem C9_base_step {num} `{JSNumber num} (Laws : JSNumberLaws num)
        (c : Config num) :
  valid_config c ->
  precision c <= 100 ->
  let s := maxStep c - minStep c - 1 in
  0 <= s <= minStep c + maxStep c ->
  let conv := fun x : num =>
                match unit c with
                | rem => (x / rootFontSize c)%js
                | px => x
                end in
  let fmin := Number_toFixed (conv (minFontSize c)) (precision c)
              ++ Unit_toString (unit c) in
  let fmax := Number_toFixed (conv (maxFontSize c)) (precision c)
              ++ Unit_toString (unit c) in
  In s (steps c)
  /\ power (convert_units c) s = 0
  /\ fsMinFinal (convert_units c) s = Ok fmin
  /\ fsMaxFinal (convert_units c) s = Ok fmax
  /\ exists middle m,
      value (convert_units c) s
      = Ok ("clamp(" ++ fmin ++ ",  " ++ middle ++ " , " ++ fmax ++ ")")
      /\ generate c = Ok m
      /\ ((forall s', s < s' <= minStep c + maxStep c -> key c s' <> key c s) ->
          StepsMap.get (key c s) m
          = Some ("clamp(" ++ fmin ++ ",  " ++ middle ++ " , " ++ fmax ++ ")"))
      /\ (suffixType c = numbered ->
          key c s = "--" ++ prefix c ++ "0"
          /\ StepsMap.get ("--" ++ prefix c ++ "0") m
             = Some ("clamp(" ++ fmin ++ ",  " ++ middle ++ " , " ++ fmax
                     ++ ")")).
Proof.
  intros V B s R conv fmin fmax.
  assert (Pw : power (convert_units c) s = 0).
  { unfold power, baseIndex, s, convert_units. destruct (unit c); simpl; lia. }
  assert (Emin : fsMinSize (convert_units c) s = conv (minFontSize c)).
  { unfold fsMinSize, minStepRatio. rewrite Pw, Math_pow_zero, Number_mul_one.
    unfold convert_units, conv, toRem. destruct (unit c); reflexivity. }
  assert (Emax : fsMaxSize (convert_units c) s = conv (maxFontSize c)).
  { unfold fsMaxSize, maxStepRatio. rewrite Pw, Math_pow_zero, Number_mul_one.
    unfold convert_units, conv, toRem. destruct (unit c); reflexivity. }
  assert (U : unit (convert_units c) = unit c)
    by (unfold convert_units; destruct (unit c) eqn:E; simpl; congruence).
  assert (Pr : 0 <= precision c <= 100)
    by (destruct V as (_ & _ & ? & _); lia).
  assert (Pr' : 0 <= precision (convert_units c) <= 100)
    by (now rewrite precision_convert_units).
  assert (Fmin : fsMinFinal (convert_units c) s = Ok fmin).
  { unfold fsMinFinal. rewrite toFixed_in_range by exact Pr'. cbn [bind].
    now rewrite Emin, U, precision_convert_units. }
  assert (Fmax : fsMaxFinal (convert_units c) s = Ok fmax).
  { unfold fsMaxFinal. rewrite toFixed_in_range by exact Pr'. cbn [bind].
    now rewrite Emax, U, precision_convert_units. }
  split; [apply steps_In; lia|]. split; [exact Pw|].
  split; [exact Fmin|]. split; [exact Fmax|].
  set (middle :=
         Number_toFixed (slope (convert_units c) s * Number_ofZ 100)%js
                        (precision (convert_units c))
         ++ "vw + "
         ++ Number_toFixed
              (fsMinSize (convert_units c) s
               - slope (convert_units c) s * minScreenWidth (convert_units c))%js
              (precision (convert_units c))
         ++ Unit_toString (unit (convert_units c))).
  assert (Vt : value_text (convert_units c) s
               = "clamp(" ++ fmin ++ ",  " ++ middle ++ " , " ++ fmax ++ ")").
  { unfold value_text, fixed_with_unit, middle, fmin, fmax.
    rewrite Emin, Emax, U, precision_convert_units.
    rewrite !append_assoc. reflexivity. }
  assert (Hget : (forall s', s < s' <= minStep c + maxStep c ->
                             key c s' <> key c s) ->
                 StepsMap.get (key c s)
                   (set_all (convert_units c) (steps c) StepsMap.empty)
                 = Some ("clamp(" ++ fmin ++ ",  " ++ middle ++ " , " ++ fmax
                         ++ ")")).
  { intros Later. rewrite <- Vt. now apply set_all_get_step. }
  exists middle. eexists.
  split; [rewrite value_in_range by exact Pr'; now rewrite Vt|].
  split; [apply (generate_valid c V B)|]. split; [exact Hget|].
  intros T.
  assert (K : key c s = "--" ++ prefix c ++ "0").
  { rewrite key_numbered by exact T. unfold s.
    replace (maxStep c - minStep c - 1 - (maxStep c - minStep c - 1)) with 0
      by lia.
    reflexivity. }
  split; [exact K|]. rewrite <- K. apply Hget.
  intros s' L E. apply key_numbered_inj in E; [lia | exact T].
Qed.

(** C10.  When [maxStep <= minStep] the base index is negative, so every
    step of the loop has a power of at least [minStep - maxStep + 1 >= 1]:
    no step has power [0].  Under [numbered] every key of a returned map is
    [--{prefix}{p}] for an integer [p >= 1], and for a valid configuration
    with a precision of at most 100 the map is returned with the keys of the
    powers from [minStep - maxStep + 1] upwards. *)
Theorem C10_no_base_step {num} `{JSNumber num} (c : Config num) :
  maxStep c <= minStep c ->
  baseIndex c < 0
  /\ (forall s, In s (steps c) ->
                minStep c - maxStep c + 1 <= power (convert_units c) s
                /\ 1 <= power (convert_units c) s
                /\ power (convert_units c) s <> 0)
  /\ (suffixType c = numbered ->
      (forall m, generate c = Ok m ->
                 Forall (fun k => exists p, 1 <= p
                                            /\ k = "--" ++ prefix c ++ string_of_Z p)
                        (StepsMap.keys m))
      /\ (valid_config c -> precision c <= 100 ->
          exists m,
            generate c = Ok m
            /\ StepsMap.keys m
               = map (fun p => "--" ++ prefix c ++ string_of_Z p)
                     (Z_range (minStep c - maxStep c + 1) (step_count c)))).
Proof.
  intros L.
  assert (Pw : forall s, power (convert_units c) s = s + (minStep c - maxStep c + 1)).
  { intros s. unfold power, baseIndex, convert_units.
    destruct (unit c); simpl; lia. }
  split; [unfold baseIndex; lia|]. split.
  - intros s I. apply steps_In in I. rewrite Pw. lia.
  - intros T. split.
    + intros m G. apply generate_returns in G. subst m.
      apply Forall_forall. intros k I.
      apply set_all_keys in I. simpl in I. apply in_map_iff in I.
      destruct I as (s & E & I). apply steps_In in I.
      rewrite key_convert_units, key_numbered in E by exact T.
      exists (s - (maxStep c - minStep c - 1)). split; [lia | now symmetry].
    + intros V B. eexists.
      split; [apply (generate_distinct c V B); congruence|].
      unfold StepsMap.keys. rewrite map_map, steps_as_range.
      replace (minStep c - maxStep c + 1) with (0 - (maxStep c - minStep c - 1))
        by lia.
      rewrite <- Z_range_shift, map_map. apply map_ext. intros s. simpl.
      rewrite key_convert_units. now apply key_numbered.
Qed.

Lemma Exact_lit_one : Exact.lit 1 0 = Q2Qc 1.
Proof. apply Q2Qc_eq_iff. reflexivity. Qed.

Lemma Exact_floor_zero : Qfloor (Exact.lit 0 0) = 0.
Proof. vm_compute. reflexivity. Qed.

(** Exact arithmetic has the two laws. *)
#[export] Instance Exact_laws : JSNumberLaws Qc.
Proof.
  split; intros x; unfold Number_ofZ; simpl.
  - unfold Exact.pow. rewrite Exact_floor_zero, Exact_lit_one. reflexivity.
  - rewrite Exact_lit_one. apply Qcmult_1_r.
Qed.

(** ** The claims run on concrete configurations *)

(** The defaults with [replaceInline] on. *)
Definition inline_defaults : Config Qc :=
  Object_assign defaultConfig
    (mkPartial None None None None None None None None
               None None None None None None (Some true) None).

(** The defaults with the steps named by the default suffixes. *)
Definition values_defaults : Config Qc :=
  Object_assign defaultConfig
    (mkPartial None None None None None None None None
               None None None (Some values) None None None None).

(** Two steps below the base and one above. *)
Definition two_below_one_above : Config Qc :=
  Object_assign defaultConfig
    (mkPartial None None None None None None (Some 2) (Some 1)
               None None None None None None None None).

(** The defaults with 101 digits asked for. *)
Definition precision_101 : Config Qc :=
  Object_assign defaultConfig
    (mkPartial None None None None None None None None
               None (Some 101) None None None None None None).

(** The plugin of a configuration that does not throw. *)
Definition plugin_of (c : Config Qc) : Plugin :=
  match plugin_body c with
  | Ok P => P
  | Throw _ => mkPlugin StepsMap.empty false "" ""
  end.

(** The generator run in exact arithmetic on the documented defaults. *)
Example generate_defaults :
  generate (num := Qc) defaultConfig
  = Ok [("--font-size--2", "clamp(0.69rem,  0.01vw + 0.69rem , 0.70rem)");
        ("--font-size--1", "clamp(0.83rem,  0.14vw + 0.81rem , 0.94rem)");
        ("--font-size-0", "clamp(1.00rem,  0.33vw + 0.93rem , 1.25rem)");
        ("--font-size-1", "clamp(1.20rem,  0.61vw + 1.08rem , 1.67rem)");
        ("--font-size-2", "clamp(1.44rem,  1.03vw + 1.23rem , 2.22rem)");
        ("--font-size-3", "clamp(1.73rem,  1.62vw + 1.40rem , 2.96rem)");
        ("--font-size-4", "clamp(2.07rem,  2.46vw + 1.58rem , 3.95rem)");
        ("--font-size-5", "clamp(2.49rem,  3.65vw + 1.76rem , 5.26rem)")].
Proof. vm_compute. reflexivity. Qed.

Example generate_px_defaults :
  generate (num := Qc) px_defaults
  = Ok [("--font-size--2", "clamp(11.11px,  0.01vw + 11.07px , 11.26px)");
        ("--font-size--1", "clamp(13.33px,  0.14vw + 12.89px , 15.00px)");
        ("--font-size-0", "clamp(16.00px,  0.33vw + 14.95px , 20.00px)");
        ("--font-size-1", "clamp(19.20px,  0.61vw + 17.24px , 26.66px)");
        ("--font-size-2", "clamp(23.04px,  1.03vw + 19.75px , 35.54px)");
        ("--font-size-3", "clamp(27.65px,  1.62vw + 22.46px , 47.37px)");
        ("--font-size-4", "clamp(33.18px,  2.46vw + 25.29px , 63.15px)");
        ("--font-size-5", "clamp(39.81px,  3.65vw + 28.14px , 84.17px)")].
Proof. vm_compute. reflexivity. Qed.

(** A step that sets a key again keeps the key's place and replaces its
    value. *)
Example generate_base_lg_base :
  generate base_lg_base
  = Ok [("--font-size-base", "clamp(1.73rem,  1.62vw + 1.40rem , 2.96rem)");
        ("--font-size-lg", "clamp(1.44rem,  1.03vw + 1.23rem , 2.22rem)")].
Proof. vm_compute. reflexivity. Qed.

Example toFixed_negative :
  Exact.toFixed_digits (Q2Qc (- 1 # 3)) 2 = "-0.33"
  /\ Exact.toFixed_digits (Q2Qc (- 1 # 1000)) 2 = "-0.00"
  /\ Exact.toFixed_digits (Q2Qc (5 # 2)) 0 = "3".
Proof. repeat split. Qed.

Example parse_nested :
  SimpleParser.parse "calc(var(--font-size-0) + 1px) / 2"
  = [func "calc"
          [func "var" [word "--font-size-0"]; space " "; word "+"; space " ";
           word "1px"];
     space " "; div "/"; space " "; word "2"].
Proof. reflexivity. Qed.

Ltac valid_by_computation :=
  unfold valid_config; cbn; repeat split; (lia || congruence).

Ltac distinct_by_computation :=
  intros; vm_compute;
  repeat (constructor; [simpl; intuition discriminate|]); constructor.

(** The specification's template has one blank after the first comma and
    none before the second; the string built for step 0 of the defaults has
    two and one.  And with 101 digits asked for, no string is built. *)
Lemma C1_template_blanks :
  (valid_config (defaultConfig (num := Qc))
   /\ value (convert_units (defaultConfig (num := Qc))) 0
      = Ok "clamp(0.69rem,  0.01vw + 0.69rem , 0.70rem)"
   /\ value_as_specified (convert_units (defaultConfig (num := Qc))) 0
      = Ok "clamp(0.69rem, 0.01vw + 0.69rem, 0.70rem)"
   /\ value (convert_units (defaultConfig (num := Qc))) 0
      <> value_as_specified (convert_units (defaultConfig (num := Qc))) 0)
  /\ (valid_config precision_101
      /\ value (convert_units precision_101) 0 = Throw RangeError
      /\ generate precision_101 = Throw RangeError).
Proof.
  split.
  - split; [valid_by_computation|].
    split; [vm_compute; reflexivity|].
    split; [vm_compute; reflexivity|].
    vm_compute. discriminate.
  - split; [valid_by_computation|]. split; vm_compute; reflexivity.
Qed.

(** C1 at the base step of the defaults. *)
Lemma C1_step_expression_witness :
  valid_config (defaultConfig (num := Qc))
  /\ precision (defaultConfig (num := Qc)) <= 100
  /\ 0 <= 2 <= 2 + 5
  /\ In 2 (steps (defaultConfig (num := Qc)))
  /\ value (convert_units (defaultConfig (num := Qc))) 2
     = Ok "clamp(1.00rem,  0.33vw + 0.93rem , 1.25rem)"
  /\ exists m,
      generate (defaultConfig (num := Qc)) = Ok m
      /\ StepsMap.get "--font-size-0" m
         = Some "clamp(1.00rem,  0.33vw + 0.93rem , 1.25rem)".
Proof.
  assert (V : valid_config (defaultConfig (num := Qc))) by valid_by_computation.
  assert (R : 0 <= 2 <= minStep (defaultConfig (num := Qc))
                        + maxStep (defaultConfig (num := Qc))) by (cbn; lia).
  assert (B : precision (defaultConfig (num := Qc)) <= 100) by (cbn; lia).
  split; [exact V|]. split; [exact B|]. split; [lia|].
  destruct (C1_step_expression defaultConfig 2 V B R) as (I & E & m & G & _ & N).
  split; [exact I|]. split; [vm_compute in E; exact E|].
  exists m. split; [exact G|].
  specialize (N eq_refl). vm_compute in N. exact N.
Defined.

(** Two steps under the one key [--font-size-sm]: one entry, not two.  And
    with 101 digits asked for, no map is returned. *)
Lemma C2_repeated_suffix :
  (valid_config repeated_suffix
   /\ minStep repeated_suffix + maxStep repeated_suffix + 1 = 2
   /\ generate repeated_suffix
      = Ok [("--font-size-sm", "clamp(1.20rem,  0.61vw + 1.08rem , 1.67rem)")]
   /\ ~ (exists m, generate repeated_suffix = Ok m
                   /\ StepsMap.size m
                      = minStep repeated_suffix + maxStep repeated_suffix + 1))
  /\ (valid_config precision_101
      /\ generate precision_101 = Throw RangeError).
Proof.
  split.
  - split; [valid_by_computation|]. split; [reflexivity|].
    assert (G : generate repeated_suffix
                = Ok [("--font-size-sm",
                       "clamp(1.20rem,  0.61vw + 1.08rem , 1.67rem)")])
      by (vm_compute; reflexivity).
    split; [exact G|].
    intros (m & Gm & S). rewrite G in Gm. injection Gm as <-.
    vm_compute in S. discriminate.
  - split; [valid_by_computation | vm_compute; reflexivity].
Qed.

(** C2 at the defaults with the steps named by the eight default suffixes. *)
Lemma C2_entry_count_witness :
  valid_config values_defaults
  /\ precision values_defaults <= 100
  /\ (suffixType values_defaults = values ->
      NoDup (firstn (step_count values_defaults) (suffixValues values_defaults)))
  /\ exists m, generate values_defaults = Ok m /\ StepsMap.size m = 8.
Proof.
  assert (V : valid_config values_defaults) by valid_by_computation.
  assert (D : suffixType values_defaults = values ->
              NoDup (firstn (step_count values_defaults)
                            (suffixValues values_defaults)))
    by distinct_by_computation.
  assert (B : precision values_defaults <= 100) by (cbn; lia).
  split; [exact V|]. split; [exact B|]. split; [exact D|].
  destruct (C2_entry_count values_defaults V B) as (m & G & _ & S).
  exists m. split; [exact G | exact (S D)].
Defined.

(** C3 at nine steps with the eight default suffixes. *)
Lemma C3_configuration_error_witness :
  suffixType nine_steps = values
  /\ Z.of_nat (List.length (suffixValues nine_steps))
     <= minStep nine_steps + maxStep nine_steps
  /\ generate nine_steps
     = Throw (ConfigurationError
                ("Insufficient suffixes passed." ++ nl
                 ++ "Number of steps: 3(minstep) + 5(maxStep) + 1(baseStep) = 9"
                 ++ nl ++ "Number of suffixes: 8" ++ nl
                 ++ "Current suffix list: xs,sm,base,md,lg,xl,xxl,xxxl" ++ nl)).
Proof.
  assert (T : suffixType nine_steps = values) by reflexivity.
  assert (L : Z.of_nat (List.length (suffixValues nine_steps))
              <= minStep nine_steps + maxStep nine_steps) by (cbn; lia).
  split; [exact T|]. split; [exact L|].
  destruct (C3_configuration_error nine_steps) as [_ M].
  destruct (M T L) as [G _]. vm_compute in G. vm_compute. exact G.
Defined.

(** Three steps named [base], [lg], [base]: the map has two keys, not the
    three suffixes in their order.  And with 101 digits asked for, no map is
    returned. *)
Lemma C4_repeated_key :
  (valid_config base_lg_base
   /\ exists m,
       generate base_lg_base = Ok m
       /\ StepsMap.keys m = ["--font-size-base"; "--font-size-lg"]
       /\ StepsMap.keys m
          <> map (fun suffix => "--" ++ prefix base_lg_base ++ suffix)
                 (firstn 3 (suffixValues base_lg_base))
       /\ StepsMap.keys m <> map (key base_lg_base) [0; 1; 2])
  /\ (valid_config precision_101
      /\ generate precision_101 = Throw RangeError).
Proof.
  split.
  - split; [valid_by_computation|].
    eexists. split; [vm_compute; reflexivity|].
    split; [reflexivity|]. split; vm_compute; discriminate.
  - split; [valid_by_computation | vm_compute; reflexivity].
Qed.

(** C4 at the defaults with the steps named by the eight default suffixes. *)
Lemma C4_entry_order_witness :
  valid_config values_defaults
  /\ precision values_defaults <= 100
  /\ (suffixType values_defaults = values ->
      NoDup (firstn (step_count values_defaults) (suffixValues values_defaults)))
  /\ exists m,
      generate values_defaults = Ok m
      /\ m = map (entry (convert_units values_defaults)) [0; 1; 2; 3; 4; 5; 6; 7]
      /\ StepsMap.keys m
         = ["--font-size-xs"; "--font-size-sm"; "--font-size-base";
            "--font-size-md"; "--font-size-lg"; "--font-size-xl";
            "--font-size-xxl"; "--font-size-xxxl"].
Proof.
  assert (V : valid_config values_defaults) by valid_by_computation.
  assert (D : suffixType values_defaults = values ->
              NoDup (firstn (step_count values_defaults)
                            (suffixValues values_defaults)))
    by distinct_by_computation.
  assert (B : precision values_defaults <= 100) by (cbn; lia).
  split; [exact V|]. split; [exact B|]. split; [exact D|].
  destruct (C4_entry_order values_defaults V B D) as (m & G & E & _ & _ & K).
  exists m. split; [exact G|]. split; [exact E|].
  exact (K eq_refl).
Defined.

(** A directive that is in no rule is not replaced: at the top level of the
    document and directly in a top-level at-rule it stays, although the steps
    map has four entries and the same comment in a rule is replaced. *)
Lemma C5_comment_outside_rules :
  plugin_replaceInline (plugin_of two_below_one_above) = false
  /\ plugin_generatorDirective (plugin_of two_below_one_above)
     = "postcss-modular-type-generate"
  /\ List.length (stepsMap (plugin_of two_below_one_above)) = 4%nat
  /\ process (plugin_of two_below_one_above)
       [comment "postcss-modular-type-generate";
        atrule "media" "print" [comment "postcss-modular-type-generate"];
        rule ":root" [comment "postcss-modular-type-generate"]]
     = [comment "postcss-modular-type-generate";
        atrule "media" "print" [comment "postcss-modular-type-generate"];
        rule ":root"
             [decl "--font-size-2" "clamp(1.44rem,  1.03vw + 1.23rem , 2.22rem)";
              decl "--font-size-3" "clamp(1.73rem,  1.62vw + 1.40rem , 2.96rem)";
              decl "--font-size-4" "clamp(2.07rem,  2.46vw + 1.58rem , 3.95rem)";
              decl "--font-size-5" "clamp(2.49rem,  3.65vw + 1.76rem , 5.26rem)"]]
  /\ existsb (mentions "postcss-modular-type-generate")
       (process (plugin_of two_below_one_above)
          [comment "postcss-modular-type-generate";
           atrule "media" "print" [comment "postcss-modular-type-generate"]])
     = true.
Proof.
  split; [reflexivity|]. split; [reflexivity|].
  split; [vm_compute; reflexivity|].
  split; vm_compute; reflexivity.
Qed.

(** C5 on a rule with a declaration, the directive and another comment, on a
    document with the directive in and out of a rule, and with
    [replaceInline] on. *)
Lemma C5_directive_expansion_witness :
  plugin_replaceInline (plugin_of two_below_one_above) = false
  /\ existsb (mentions (plugin_generatorDirective (plugin_of two_below_one_above)))
             [decl "color" "red"; comment "generate"] = false
  /\ Rule (plugin_of two_below_one_above) ":root"
          [decl "color" "red"; comment "postcss-modular-type-generate";
           comment "generate"]
     = [decl "color" "red";
        decl "--font-size-2" "clamp(1.44rem,  1.03vw + 1.23rem , 2.22rem)";
        decl "--font-size-3" "clamp(1.73rem,  1.62vw + 1.40rem , 2.96rem)";
        decl "--font-size-4" "clamp(2.07rem,  2.46vw + 1.58rem , 3.95rem)";
        decl "--font-size-5" "clamp(2.49rem,  3.65vw + 1.76rem , 5.26rem)";
        comment "generate"]
  /\ process (plugin_of two_below_one_above)
       [comment "postcss-modular-type-generate";
        rule ":root" [comment "postcss-modular-type-generate"]]
     = [comment "postcss-modular-type-generate";
        rule ":root"
             [decl "--font-size-2" "clamp(1.44rem,  1.03vw + 1.23rem , 2.22rem)";
              decl "--font-size-3" "clamp(1.73rem,  1.62vw + 1.40rem , 2.96rem)";
              decl "--font-size-4" "clamp(2.07rem,  2.46vw + 1.58rem , 3.95rem)";
              decl "--font-size-5" "clamp(2.49rem,  3.65vw + 1.76rem , 5.26rem)"]]
  /\ process (plugin_of two_below_one_above)
       [decl "color" "red"; comment "generate"]
     = [decl "color" "red"; comment "generate"]
  /\ (plugin_replaceInline (plugin_of inline_defaults) = true
      /\ process (plugin_of inline_defaults)
           [rule ":root" [comment "postcss-modular-type-generate"]]
         = [rule ":root" [comment "postcss-modular-type-generate"]]).
Proof.
  assert (Off : plugin_replaceInline (plugin_of two_below_one_above) = false)
    by reflexivity.
  assert (No : existsb
                 (mentions (plugin_generatorDirective
                              (plugin_of two_below_one_above)))
                 [decl "color" "red"; comment "generate"] = false)
    by (vm_compute; reflexivity).
  assert (On : plugin_replaceInline (plugin_of inline_defaults) = true)
    by reflexivity.
  split; [exact Off|]. split; [exact No|].
  destruct (C5_directive_expansion (plugin_of two_below_one_above))
    as [Expand _].
  destruct (Expand Off)
    as (Here & _ & _ & _ & _ & InRule & _ & Outside & _ & Unchanged & _).
  split.
  { pose proof (Here ":root" [decl "color" "red"] [comment "generate"]) as W.
    vm_compute in W. vm_compute. exact W. }
  split.
  { pose proof (InRule ":root" [comment "postcss-modular-type-generate"]
                       [comment "postcss-modular-type-generate"] []) as W.
    vm_compute in W. vm_compute. exact W. }
  split; [exact (Unchanged _ No)|].
  split; [exact On|].
  destruct (C5_directive_expansion (plugin_of inline_defaults)) as [_ Idle].
  exact (Idle On _).
Defined.

(** C6 on [var(--font-size-0)], on a value with two keys, and on a value
    whose word is not a key. *)
Lemma C6_inline_replacement_witness :
  plugin_body inline_defaults = Ok (plugin_of inline_defaults)
  /\ replaceInline inline_defaults = true
  /\ prefix inline_defaults = "font-size-"
  /\ SimpleParser.parse "var(--font-size-0)"
     = [func "var" [word "--font-size-0"]]
  /\ StepsMap.get "--font-size-0" (stepsMap (plugin_of inline_defaults))
     = Some "clamp(1.00rem,  0.33vw + 0.93rem , 1.25rem)"
  /\ Declaration SimpleParser.parse (plugin_of inline_defaults)
                 "color" "var(--font-size-0)"
     = "clamp(1.00rem,  0.33vw + 0.93rem , 1.25rem)"
  /\ Declaration SimpleParser.parse (plugin_of inline_defaults)
                 "font-size" "calc(var(--font-size-1) + var(--font-size-3))"
     = "clamp(1.73rem,  1.62vw + 1.40rem , 2.96rem)"
  /\ Declaration SimpleParser.parse (plugin_of inline_defaults)
                 "font-size" "var(--font-size-9)"
     = "var(--font-size-9)".
Proof.
  assert (B : plugin_body inline_defaults = Ok (plugin_of inline_defaults))
    by (vm_compute; reflexivity).
  assert (Ron : replaceInline inline_defaults = true) by reflexivity.
  assert (Pre : prefix inline_defaults = "font-size-") by reflexivity.
  assert (Parse : SimpleParser.parse "var(--font-size-0)"
                  = [func "var" [word "--font-size-0"]])
    by (vm_compute; reflexivity).
  assert (G : StepsMap.get "--font-size-0" (stepsMap (plugin_of inline_defaults))
              = Some "clamp(1.00rem,  0.33vw + 0.93rem , 1.25rem)")
    by (vm_compute; reflexivity).
  split; [exact B|]. split; [exact Ron|]. split; [exact Pre|].
  split; [exact Parse|]. split; [exact G|].
  split.
  { destruct (C6_inline_replacement SimpleParser.parse inline_defaults
                (plugin_of inline_defaults) "color" "var(--font-size-0)" B)
      as [_ Example].
    exact (Example Ron Pre Parse _ G). }
  split.
  { destruct (C6_inline_replacement SimpleParser.parse inline_defaults
                (plugin_of inline_defaults) "font-size"
                "calc(var(--font-size-1) + var(--font-size-3))" B)
      as [Last _].
    vm_compute in Last. vm_compute. exact Last. }
  destruct (C6_inline_replacement SimpleParser.parse inline_defaults
              (plugin_of inline_defaults) "font-size" "var(--font-size-9)" B)
    as [Last _].
  vm_compute in Last. vm_compute. exact Last.
Defined.

(** With the [px] defaults the last key is [--font-size-5]: the keys do not
    stop at [--font-size-3]. *)
Lemma C7_last_key :
  exists m,
    generate (num := Qc) px_defaults = Ok m
    /\ StepsMap.size m = 8
    /\ hd_error (StepsMap.keys m) = Some "--font-size--2"
    /\ last (StepsMap.keys m) "" = "--font-size-5"
    /\ last (StepsMap.keys m) "" <> "--font-size-3"
    /\ StepsMap.keys m
       <> ["--font-size--2"; "--font-size--1"; "--font-size-0";
           "--font-size-1"; "--font-size-2"; "--font-size-3"].
Proof.
  eexists. split; [vm_compute; reflexivity|].
  split; [reflexivity|]. split; [reflexivity|]. split; [reflexivity|].
  split; vm_compute; discriminate.
Qed.

(** With 101 digits asked for, the defaults are valid and have the base step
    2, but the first iteration throws: the base step is never reached, no
    string is printed for it and no map is returned. *)
Lemma C9_precision_beyond :
  valid_config precision_101
  /\ 0 <= maxStep precision_101 - minStep precision_101 - 1
       <= minStep precision_101 + maxStep precision_101
  /\ power (convert_units precision_101) 2 = 0
  /\ value (convert_units precision_101) 0 = Throw RangeError
  /\ fsMinFinal (convert_units precision_101) 2 = Throw RangeError
  /\ fsMaxFinal (convert_units precision_101) 2 = Throw RangeError
  /\ generate precision_101 = Throw RangeError
  /\ ~ (exists m, generate precision_101 = Ok m).
Proof.
  split; [valid_by_computation|]. split; [cbn; lia|].
  split; [reflexivity|].
  split; [vm_compute; reflexivity|].
  split; [vm_compute; reflexivity|].
  split; [vm_compute; reflexivity|].
  assert (G : generate precision_101 = Throw RangeError)
    by (vm_compute; reflexivity).
  split; [exact G|]. intros [m Gm]. rewrite G in Gm. discriminate.
Qed.

(** C9 at the defaults, whose base step is step 2. *)
Lemma C9_base_step_witness :
  valid_config (defaultConfig (num := Qc))
  /\ precision (defaultConfig (num := Qc)) <= 100
  /\ 0 <= 5 - 2 - 1 <= 2 + 5
  /\ In 2 (steps (defaultConfig (num := Qc)))
  /\ power (convert_units (defaultConfig (num := Qc))) 2 = 0
  /\ fsMinFinal (convert_units (defaultConfig (num := Qc))) 2 = Ok "1.00rem"
  /\ fsMaxFinal (convert_units (defaultConfig (num := Qc))) 2 = Ok "1.25rem"
  /\ exists m,
      generate (defaultConfig (num := Qc)) = Ok m
      /\ StepsMap.get "--font-size-0" m
         = Some "clamp(1.00rem,  0.33vw + 0.93rem , 1.25rem)".
Proof.
  assert (V : valid_config (defaultConfig (num := Qc))) by valid_by_computation.
  assert (B : precision (defaultConfig (num := Qc)) <= 100) by (cbn; lia).
  assert (R : 0 <= maxStep (defaultConfig (num := Qc))
                   - minStep (defaultConfig (num := Qc)) - 1
              <= minStep (defaultConfig (num := Qc))
                 + maxStep (defaultConfig (num := Qc))) by (cbn; lia).
  split; [exact V|]. split; [exact B|]. split; [lia|].
  destruct (C9_base_step Exact_laws defaultConfig V B R)
    as (I & Pw & Fmin & Fmax & middle & m & Val & G & _ & N).
  split; [exact I|]. split; [exact Pw|].
  split; [vm_compute in Fmin; vm_compute; exact Fmin|].
  split; [vm_compute in Fmax; vm_compute; exact Fmax|].
  exists m. split; [exact G|].
  destruct (N eq_refl) as [_ Get].
  match type of Val with
  | ?computed = _ =>
      assert (E : computed = Ok "clamp(1.00rem,  0.33vw + 0.93rem , 1.25rem)")
        by (vm_compute; reflexivity)
  end.
  rewrite E in Val.
  change ("--" ++ prefix (defaultConfig (num := Qc)) ++ "0")
    with "--font-size-0" in Get.
  rewrite Get.
  exact (eq_sym (f_equal (fun r : result string =>
                            match r with
                            | Ok x => Some x
                            | Throw _ => None
                            end) Val)).
Defined.

(** C10 at [minStep = 2], [maxStep = 1]: the powers are 2, 3, 4, 5. *)
Lemma C10_no_base_step_witness :
  maxStep two_below_one_above <= minStep two_below_one_above
  /\ baseIndex two_below_one_above = -2
  /\ map (power (convert_units two_below_one_above)) (steps two_below_one_above)
     = [2; 3; 4; 5]
  /\ (forall s, In s (steps two_below_one_above) ->
                1 <= power (convert_units two_below_one_above) s)
  /\ exists m,
      generate two_below_one_above = Ok m
      /\ StepsMap.keys m
         = ["--font-size-2"; "--font-size-3"; "--font-size-4"; "--font-size-5"].
Proof.
  assert (L : maxStep two_below_one_above <= minStep two_below_one_above)
    by (cbn; lia).
  assert (V : valid_config two_below_one_above) by valid_by_computation.
  split; [exact L|]. split; [reflexivity|]. split; [reflexivity|].
  destruct (C10_no_base_step two_below_one_above L) as (_ & Pw & Keys).
  split; [intros s I; apply (Pw s I)|].
  destruct (Keys eq_refl) as [_ Valid].
  destruct (Valid V ltac:(cbn; lia)) as (m & G & K).
  exists m. split; [exact G | exact K].
Defined.

(** * Further properties of the plugin *)

(** ** Successive calls and the shared defaults *)

(** A field of two options objects written one after the other: the later
    object's value when it has the field. *)
Definition merge_field {A} (earlier later : option A) : option A :=
  match later with
  | Some v => Some v
  | None => earlier
  end.

(** The options of two successive calls as one options object. *)
Definition merge_opts {num} (a b : PartialConfig num) : PartialConfig num :=
  {| opt_minScreenWidth := merge_field (opt_minScreenWidth a) (opt_minScreenWidth b);
     opt_maxScreenWidth := merge_field (opt_maxScreenWidth a) (opt_maxScreenWidth b);
     opt_minFontSize := merge_field (opt_minFontSize a) (opt_minFontSize b);
     opt_maxFontSize := merge_field (opt_maxFontSize a) (opt_maxFontSize b);
     opt_minRatio := merge_field (opt_minRatio a) (opt_minRatio b);
     opt_maxRatio := merge_field (opt_maxRatio a) (opt_maxRatio b);
     opt_minStep := merge_field (opt_minStep a) (opt_minStep b);
     opt_maxStep := merge_field (opt_maxStep a) (opt_maxStep b);
     opt_rootFontSize := merge_field (opt_rootFontSize a) (opt_rootFontSize b);
     opt_precision := merge_field (opt_precision a) (opt_precision b);
     opt_prefix := merge_field (opt_prefix a) (opt_prefix b);
     opt_suffixType := merge_field (opt_suffixType a) (opt_suffixType b);
     opt_suffixValues := merge_field (opt_suffixValues a) (opt_suffixValues b);
     opt_unit := merge_field (opt_unit a) (opt_unit b);
     opt_replaceInline := merge_field (opt_replaceInline a) (opt_replaceInline b);
     opt_generatorDirective :=
       merge_field (opt_generatorDirective a) (opt_generatorDirective b) |}.

(** The options object that gives every field of [c]. *)
Definition all_fields {num} (c : Config num) : PartialConfig num :=
  {| opt_minScreenWidth := Some (minScreenWidth c);
     opt_maxScreenWidth := Some (maxScreenWidth c);
     opt_minFontSize := Some (minFontSize c);
     opt_maxFontSize := Some (maxFontSize c);
     opt_minRatio := Some (minRatio c);
     opt_maxRatio := Some (maxRatio c);
     opt_minStep := Some (minStep c);
     opt_maxStep := Some (maxStep c);
     opt_rootFontSize := Some (rootFontSize c);
     opt_precision := Some (precision c);
     opt_prefix := Some (prefix c);
     opt_suffixType := Some (suffixType c);
     opt_suffixValues := Some (suffixValues c);
     opt_unit := Some (unit c);
     opt_replaceInline := Some (replaceInline c);
     opt_generatorDirective := Some (generatorDirective c) |}.

Lemma assign_field_merge {A} (target : A) (a b : option A) :
  assign_field (assign_field target a) b = assign_field target (merge_field a b).
Proof. destruct b; reflexivity. Qed.

Lemma assign_field_again {A} (target : A) (a : option A) :
  assign_field (assign_field target a) a = assign_field target a.
Proof. destruct a; reflexivity. Qed.

Lemma Object_assign_merge {num} (target : Config num) (a b : PartialConfig num) :
  Object_assign (Object_assign target a) b = Object_assign target (merge_opts a b).
Proof.
  unfold Object_assign, merge_opts. cbn.
  now rewrite !assign_field_merge.
Qed.

Lemma Object_assign_again {num} (target : Config num) (a : PartialConfig num) :
  Object_assign (Object_assign target a) a = Object_assign target a.
Proof.
  unfold Object_assign. cbn. now rewrite !assign_field_again.
Qed.

Lemma Object_assign_no_opts {num} (target : Config num) :
  Object_assign target no_opts = target.
Proof. destruct target. reflexivity. Qed.

Lemma Object_assign_all_fields {num} (target c : Config num) :
  Object_assign target (all_fields c) = c.
Proof. destruct c. reflexivity. Qed.

Section SharedDefaults.

Context {num : Type} `{JSNumber num}.

(** X1.  Two successive calls compose: the second call returns, and leaves in
    the shared defaults, what a single call would with the two options
    objects merged, a field of the second taking precedence. *)
Theorem X1_calls_compose (a b : PartialConfig num) (shared : Config num) :
  plugin_twice a b shared = plugin (merge_opts a b) shared.
Proof.
  unfold plugin_twice, plugin. cbn [snd].
  now rewrite Object_assign_merge.
Qed.

(** X2.  A call repeats the call before it, its exception included, when it
    is made with no options or with the same options again; the shared
    defaults stay as the first call left them. *)
Theorem X2_call_repeats (o : PartialConfig num) (shared : Config num) :
  plugin_twice o no_opts shared = plugin o shared
  /\ plugin_twice o o shared = plugin o shared.
Proof.
  unfold plugin_twice, plugin. cbn [snd].
  now rewrite Object_assign_no_opts, Object_assign_again.
Qed.

(** X3.  A call that gives every field resolves to exactly those fields,
    whatever the earlier calls left in the shared defaults. *)
Theorem X3_all_fields_given (c shared : Config num) :
  plugin (all_fields c) shared = (plugin_body c, c).
Proof. unfold plugin. now rewrite Object_assign_all_fields. Qed.

End SharedDefaults.

(** ** The map that the loop builds *)

(** The first occurrence of every string, in order. *)
Fixpoint first_occurrences (l : list string) : list string :=
  match l with
  | [] => []
  | k :: rest => k :: remove string_dec k (first_occurrences rest)
  end.

Definition absent_from (seen : list string) (k : string) : bool :=
  if in_dec string_dec k seen then false else true.

Lemma set_keys_NoDup (k v : string) (m : StepsMap.t) :
  NoDup (StepsMap.keys m) -> NoDup (StepsMap.keys (StepsMap.set k v m)).
Proof.
  intros ND.
  destruct (in_dec string_dec k (StepsMap.keys m)) as [I|N].
  - now rewrite set_present.
  - rewrite set_fresh by exact N. unfold StepsMap.keys. rewrite map_app. simpl.
    apply NoDup_app; [exact ND | repeat constructor; intros [] |].
    intros x Ix [<-|[]]. contradiction.
Qed.

Lemma in_get (k v : string) (m : StepsMap.t) :
  NoDup (StepsMap.keys m) -> In (k, v) m -> StepsMap.get k m = Some v.
Proof.
  induction m as [|[k' v'] m IH]; simpl; intros ND I.
  - contradiction.
  - inversion ND as [|? ? Hn ND']; subst.
    destruct I as [E|I].
    + injection E as -> ->. now rewrite String.eqb_refl.
    + destruct (String.eqb_spec k' k) as [->|D].
      * exfalso. apply Hn. change k with (fst (k, v)). now apply in_map.
      * now apply IH.
Qed.

Lemma filter_absent_remove (seen : list string) (k : string) (l : list string) :
  filter (absent_from (seen ++ [k])) l
  = filter (absent_from seen) (remove string_dec k l).
Proof.
  induction l as [|x l IH]; simpl; [reflexivity|].
  destruct (string_dec k x) as [<-|D].
  - rewrite <- IH. unfold absent_from at 1.
    destruct (in_dec string_dec k (seen ++ [k])) as [_|N]; [reflexivity|].
    exfalso. apply N. rewrite in_app_iff. right. now left.
  - simpl. rewrite <- IH.
    assert (E : absent_from (seen ++ [k]) x = absent_from seen x).
    { unfold absent_from.
      destruct (in_dec string_dec x (seen ++ [k])) as [I|N];
        destruct (in_dec string_dec x seen) as [I'|N']; try reflexivity.
      - rewrite in_app_iff in I. destruct I as [I|[E|[]]];
          [contradiction | congruence].
      - exfalso. apply N. rewrite in_app_iff. now left. }
    now rewrite E.
Qed.

Lemma filter_absent_remove_seen (seen : list string) (k : string)
      (l : list string) :
  In k seen ->
  filter (absent_from seen) (remove string_dec k l) = filter (absent_from seen) l.
Proof.
  intros I. induction l as [|x l IH]; simpl; [reflexivity|].
  destruct (string_dec k x) as [<-|D].
  - rewrite IH. unfold absent_from at 2.
    destruct (in_dec string_dec k seen); [reflexivity | contradiction].
  - simpl. now rewrite IH.
Qed.

Section MapFacts.

Context {num : Type} `{JSNumber num}.

Lemma set_all_NoDup (c : Config num) (todo : list Z) (m : StepsMap.t) :
  NoDup (StepsMap.keys m) -> NoDup (StepsMap.keys (set_all c todo m)).
Proof.
  revert m. induction todo as [|step later IH]; intros m ND.
  - exact ND.
  - change (set_all c (step :: later) m)
      with (set_all c later (StepsMap.set (key c step) (value_text c step) m)).
    apply IH. now apply set_keys_NoDup.
Qed.

Lemma set_all_first_occurrences (c : Config num) (todo : list Z)
      (m : StepsMap.t) :
  StepsMap.keys (set_all c todo m)
  = (StepsMap.keys m
     ++ filter (absent_from (StepsMap.keys m))
               (first_occurrences (map (key c) todo)))%list.
Proof.
  revert m. induction todo as [|step later IH]; intros m.
  - simpl. now rewrite app_nil_r.
  - change (set_all c (step :: later) m)
      with (set_all c later (StepsMap.set (key c step) (value_text c step) m)).
    rewrite IH. simpl.
    destruct (in_dec string_dec (key c step) (StepsMap.keys m)) as [I|N].
    + assert (E : absent_from (StepsMap.keys m) (key c step) = false).
      { unfold absent_from.
        destruct (in_dec string_dec (key c step) (StepsMap.keys m));
          [reflexivity | contradiction]. }
      rewrite set_present by exact I. rewrite E. f_equal.
      now rewrite filter_absent_remove_seen.
    + assert (E : absent_from (StepsMap.keys m) (key c step) = true).
      { unfold absent_from.
        destruct (in_dec string_dec (key c step) (StepsMap.keys m));
          [contradiction | reflexivity]. }
      rewrite set_fresh by exact N. rewrite E.
      unfold StepsMap.keys. rewrite map_app. simpl.
      rewrite <- app_assoc. simpl. do 2 f_equal.
      apply filter_absent_remove.
Qed.

(** The value found under the key of a step is that of the last step with
    that key. *)
Lemma set_all_get_range (c : Config num) (count : nat) :
  forall (from : Z) (m : StepsMap.t) (s : Z),
    from <= s < from + Z.of_nat count ->
    exists s',
      s <= s' < from + Z.of_nat count
      /\ key c s' = key c s
      /\ (forall s'', s' < s'' < from + Z.of_nat count -> key c s'' <> key c s)
      /\ StepsMap.get (key c s) (set_all c (Z_range from count) m)
         = Some (value_text c s').
Proof.
  induction count as [|n IH]; intros from m s R; [lia|].
  change (set_all c (Z_range from (S n)) m)
    with (set_all c (Z_range (from + 1) n)
            (StepsMap.set (key c from) (value_text c from) m)).
  destruct (in_dec string_dec (key c s) (map (key c) (Z_range (from + 1) n)))
    as [I|N].
  - apply in_map_iff in I. destruct I as (x & E & I).
    apply Z_range_In in I.
    destruct (IH (from + 1) (StepsMap.set (key c from) (value_text c from) m)
                 x I) as (s' & R' & K & Later & G).
    rewrite E in K, Later, G.
    exists s'. split; [|split; [exact K | split; [|exact G]]].
    + destruct (Z_lt_le_dec s' s) as [L|L]; [|lia].
      exfalso. apply (Later s); [lia | reflexivity].
    + intros s'' L. apply Later. lia.
  - assert (s = from).
    { destruct (Z.eq_dec s from) as [E|D]; [exact E|]. exfalso. apply N.
      apply in_map, Z_range_In. lia. }
    subst s. exists from. split; [lia|]. split; [reflexivity|]. split.
    + intros s'' L E. apply N. rewrite <- E. apply in_map, Z_range_In. lia.
    + apply set_all_get_last; [apply get_set_same|].
      intros x I E. apply N. rewrite <- E. now apply in_map.
Qed.

(** X4.  A map returned by [generate] never holds a key twice, whatever the
    suffixes are. *)
Theorem X4_keys_distinct (c : Config num) (m : StepsMap.t) :
  generate c = Ok m -> NoDup (StepsMap.keys m).
Proof.
  intros G. apply generate_returns in G. subst m.
  apply set_all_NoDup. constructor.
Qed.

(** X5.  The keys of a returned map are the keys of the steps in step order,
    each at the place of its first step. *)
Theorem X5_keys_first_occurrences (c : Config num) (m : StepsMap.t) :
  generate c = Ok m ->
  StepsMap.keys m = first_occurrences (map (key c) (steps c)).
Proof.
  intros G. apply generate_returns in G. subst m.
  rewrite set_all_first_occurrences. simpl.
  rewrite (map_ext _ (key c)) by apply key_convert_units.
  induction (first_occurrences (map (key c) (steps c))) as [|k l IH];
    simpl; [reflexivity | now rewrite IH].
Qed.

(** X6.  In a returned map the key of every step is present, and the value
    under it is the expression of the last step that has this key. *)
Theorem X6_last_step_wins (c : Config num) (m : StepsMap.t) (s : Z) :
  generate c = Ok m ->
  0 <= s <= maxStep c + minStep c ->
  exists s',
    s <= s' <= maxStep c + minStep c
    /\ key c s' = key c s
    /\ (forall s'', s' < s'' <= maxStep c + minStep c -> key c s'' <> key c s)
    /\ StepsMap.get (key c s) m = Some (value_text (convert_units c) s').
Proof.
  intros G R. apply generate_returns in G. subst m.
  rewrite steps_as_range.
  destruct (set_all_get_range (convert_units c) (step_count c) 0
                              StepsMap.empty s)
    as (s' & R' & K & Later & Gt).
  { unfold step_count. lia. }
  repeat rewrite key_convert_units in K.
  repeat rewrite key_convert_units in Gt.
  assert (B : 0 + Z.of_nat (step_count c) = maxStep c + minStep c + 1)
    by (unfold step_count; lia).
  exists s'. split; [lia|]. split; [exact K|]. split; [|exact Gt].
  intros s'' L. specialize (Later s'').
  repeat rewrite key_convert_units in Later. apply Later. lia.
Qed.

End MapFacts.

(** ** Outcomes of the generator and what it reads *)

(** The configuration with another list of suffixes. *)
Definition with_suffixValues {num} (c : Config num) (l : list string)
  : Config num :=
  {| minScreenWidth := minScreenWidth c;
     maxScreenWidth := maxScreenWidth c;
     minFontSize := minFontSize c;
     maxFontSize := maxFontSize c;
     minRatio := minRatio c;
     maxRatio := maxRatio c;
     minStep := minStep c;
     maxStep := maxStep c;
     rootFontSize := rootFontSize c;
     precision := precision c;
     prefix := prefix c;
     suffixType := suffixType c;
     suffixValues := l;
     unit := unit c;
     replaceInline := replaceInline c;
     generatorDirective := generatorDirective c |}.

(** The configuration with another root font size. *)
Definition with_rootFontSize {num} (c : Config num) (r : num) : Config num :=
  {| minScreenWidth := minScreenWidth c;
     maxScreenWidth := maxScreenWidth c;
     minFontSize := minFontSize c;
     maxFontSize := maxFontSize c;
     minRatio := minRatio c;
     maxRatio := maxRatio c;
     minStep := minStep c;
     maxStep := maxStep c;
     rootFontSize := r;
     precision := precision c;
     prefix := prefix c;
     suffixType := suffixType c;
     suffixValues := suffixValues c;
     unit := unit c;
     replaceInline := replaceInline c;
     generatorDirective := generatorDirective c |}.

Lemma prefix_iff (sub s : string) :
  String.prefix sub s = true <-> exists rest, s = sub ++ rest.
Proof.
  revert s. induction sub as [|a sub IH]; intros s.
  - split; [intros _; now exists s | intros _; now destruct s].
  - destruct s as [|b s]; simpl.
    + split; [discriminate | intros [rest E]; discriminate].
    + destruct (ascii_dec a b) as [<-|D].
      * rewrite IH. split; intros [rest E]; exists rest; congruence.
      * split; [discriminate | intros [rest E]; congruence].
Qed.

(** [includes] finds exactly the substrings. *)
Lemma includes_iff (s sub : string) :
  includes s sub = true <-> exists before rest, s = before ++ sub ++ rest.
Proof.
  induction s as [|a s IH].
  - change (includes "" sub) with (String.prefix sub "" || false)%bool.
    rewrite orb_false_r, prefix_iff. split.
    + intros [rest E]. now exists "", rest.
    + intros (before & rest & E). destruct before; [|discriminate].
      now exists rest.
  - change (includes (String a s) sub)
      with (String.prefix sub (String a s) || includes s sub)%bool.
    rewrite orb_true_iff, prefix_iff, IH. split.
    + intros [[rest E]|(before & rest & E)].
      * now exists "", rest.
      * exists (String a before), rest. simpl. now rewrite E.
    + intros (before & rest & E). destruct before as [|b before].
      * left. now exists rest.
      * right. simpl in E. injection E as _ E. now exists before, rest.
Qed.

Lemma includes_trans (s w sub : string) :
  includes s w = true -> includes w sub = true -> includes s sub = true.
Proof.
  rewrite !includes_iff.
  intros (b1 & r1 & E1) (b2 & r2 & E2). subst.
  exists (b1 ++ b2), (r2 ++ r1). now rewrite !append_assoc.
Qed.

Lemma nth_firstn_below {A : Type} (d : A) (l : list A) (n i : nat) :
  (i < n)%nat -> nth i (firstn n l) d = nth i l d.
Proof.
  revert n i. induction l as [|a l IH]; intros n i L.
  - now rewrite firstn_nil.
  - destruct n as [|n]; [lia|]. destruct i as [|i]; simpl; [reflexivity|].
    apply IH. lia.
Qed.

Section OutcomeFacts.

Context {num : Type} `{JSNumber num}.

Lemma for_steps_out_of_range (c : Config num) (step : Z) (later : list Z)
      (m : StepsMap.t) :
  ~ 0 <= precision c <= 100 ->
  for_steps c (step :: later) m = Throw RangeError.
Proof.
  intros R. simpl. unfold value at 1, yIntersect.
  now rewrite toFixed_out_of_range.
Qed.

Lemma for_steps_ext (c c' : Config num) (todo : list Z) (m : StepsMap.t) :
  (forall s, In s todo -> value c s = value c' s /\ key c s = key c' s) ->
  for_steps c todo m = for_steps c' todo m.
Proof.
  revert m. induction todo as [|step later IH]; intros m E; simpl.
  - reflexivity.
  - destruct (E step (or_introl eq_refl)) as [-> ->].
    destruct (value c' step); simpl; [|reflexivity].
    apply IH. intros s I. apply E. now right.
Qed.

Lemma insufficient_negative_total (c : Config num) :
  maxStep c + minStep c < 0 -> insufficient_suffixes c = false.
Proof.
  intros L. destruct (insufficient_suffixes c) eqn:E; [|reflexivity].
  apply insufficient_iff in E. lia.
Qed.

Lemma generate_out_of_range (c : Config num) :
  insufficient_suffixes c = false ->
  0 <= maxStep c + minStep c ->
  ~ 0 <= precision c <= 100 ->
  generate c = Throw RangeError.
Proof.
  intros I L R. unfold generate, steps. rewrite I.
  destruct (Z.to_nat (maxStep c + minStep c + 1)) as [|n] eqn:E; [lia|].
  change (map Z.of_nat (seq 0 (S n))) with (0 :: map Z.of_nat (seq 1 n)).
  apply for_steps_out_of_range. now rewrite precision_convert_units.
Qed.

Lemma sufficient_iff (c : Config num) :
  insufficient_suffixes c = false
  <-> ~ (suffixType c = values
         /\ Z.of_nat (List.length (suffixValues c)) <= minStep c + maxStep c).
Proof.
  rewrite <- insufficient_iff. destruct (insufficient_suffixes c); split;
    congruence.
Qed.

(** X7.  [generate] throws the [RangeError] of [toFixed] exactly when the
    suffix check passes, the loop has a step to run, and the precision is
    below 0 or above 100. *)
Theorem X7_range_error (c : Config num) :
  generate c = Throw RangeError
  <-> ~ (suffixType c = values
         /\ Z.of_nat (List.length (suffixValues c)) <= minStep c + maxStep c)
      /\ 0 <= maxStep c + minStep c
      /\ (precision c < 0 \/ 100 < precision c).
Proof.
  rewrite <- sufficient_iff. split.
  - intros G. destruct (insufficient_suffixes c) eqn:I.
    { unfold generate in G. rewrite I in G. discriminate. }
    split; [reflexivity|].
    destruct (Z_lt_le_dec (maxStep c + minStep c) 0) as [L|L].
    { exfalso. unfold generate, steps in G. rewrite I in G.
      replace (Z.to_nat (maxStep c + minStep c + 1)) with O in G by lia.
      discriminate. }
    split; [exact L|].
    destruct (Z_lt_le_dec (precision c) 0) as [Lo|Lo]; [now left|].
    destruct (Z_lt_le_dec 100 (precision c)) as [Hi|Hi]; [now right|].
    exfalso. unfold generate in G. rewrite I in G.
    rewrite for_steps_in_range in G
      by (rewrite precision_convert_units; lia).
    discriminate.
  - intros (I & L & R). apply generate_out_of_range; [exact I | exact L | lia].
Qed.

(** X8.  [generate] returns a map exactly when the suffix check passes and
    either the precision is within 0..100 or the loop has no step to run;
    when [maxStep + minStep] is negative it returns the empty map, whatever
    the other fields are. *)
Theorem X8_returns (c : Config num) :
  ((exists m, generate c = Ok m)
   <-> ~ (suffixType c = values
          /\ Z.of_nat (List.length (suffixValues c)) <= minStep c + maxStep c)
       /\ (maxStep c + minStep c < 0 \/ 0 <= precision c <= 100))
  /\ (maxStep c + minStep c < 0 -> generate c = Ok []).
Proof.
  assert (Neg : maxStep c + minStep c < 0 -> generate c = Ok []).
  { intros L. unfold generate. rewrite insufficient_negative_total by exact L.
    unfold steps. replace (Z.to_nat (maxStep c + minStep c + 1)) with O by lia.
    reflexivity. }
  split; [|exact Neg]. rewrite <- sufficient_iff. split.
  - intros [m G]. destruct (insufficient_suffixes c) eqn:I.
    { unfold generate in G. rewrite I in G. discriminate. }
    split; [reflexivity|].
    destruct (Z_lt_le_dec (maxStep c + minStep c) 0) as [L|L]; [now left|].
    right.
    destruct (Z_lt_le_dec (precision c) 0) as [Lo|Lo].
    { rewrite generate_out_of_range in G by (auto; lia). discriminate. }
    destruct (Z_lt_le_dec 100 (precision c)) as [Hi|Hi]; [|lia].
    rewrite generate_out_of_range in G by (auto; lia). discriminate.
  - intros (I & [L|R]).
    + exists []. now apply Neg.
    + unfold generate. rewrite I. eexists. apply for_steps_in_range.
      now rewrite precision_convert_units.
Qed.

End OutcomeFacts.

Section ShapeFacts.

Context {num : Type} `{JSNumber num}.

Lemma key_begins (c : Config num) (s : Z) :
  exists suffix, key c s = "--" ++ prefix c ++ suffix.
Proof. unfold key. destruct (suffixType c); eauto. Qed.

Lemma key_includes_prefix (c : Config num) (s : Z) :
  includes (key c s) (prefix c) = true.
Proof.
  destruct (key_begins c s) as [suffix ->].
  apply includes_iff. now exists "--", suffix.
Qed.

Lemma generated_keys (c : Config num) (m : StepsMap.t) (k : string) :
  generate c = Ok m -> In k (StepsMap.keys m) ->
  exists s, 0 <= s <= maxStep c + minStep c /\ k = key c s.
Proof.
  intros G I. apply generate_returns in G. subst m.
  apply set_all_keys in I. simpl in I. apply in_map_iff in I.
  destruct I as (s & E & I). apply steps_In in I.
  exists s. split; [exact I|]. now rewrite <- E, key_convert_units.
Qed.

(** X9.  Every key of a returned map is the key of one of the steps
    [0..maxStep + minStep]; it begins with [--] and the prefix, and so
    contains the prefix. *)
Theorem X9_key_format (c : Config num) (m : StepsMap.t) :
  generate c = Ok m ->
  Forall (fun k =>
            (exists s, 0 <= s <= maxStep c + minStep c /\ k = key c s)
            /\ (exists suffix, k = "--" ++ prefix c ++ suffix)
            /\ includes k (prefix c) = true)
         (StepsMap.keys m).
Proof.
  intros G. apply Forall_forall. intros k I.
  destruct (generated_keys c m k G I) as (s & R & ->).
  split; [now exists s|]. split; [apply key_begins | apply key_includes_prefix].
Qed.

(** X10.  Every value of a returned map, for any configuration, has the
    shape [clamp(<n><unit>,  <n>vw + <n><unit> , <n><unit>)] where each [<n>]
    is a number printed by [toFixed] with the configured precision. *)
Theorem X10_value_shape (c : Config num) (m : StepsMap.t) :
  generate c = Ok m ->
  Forall (fun kv =>
            exists x1 x2 x3 x4 : num,
              snd kv
              = "clamp(" ++ Number_toFixed x1 (precision c)
                ++ Unit_toString (unit c) ++ ",  "
                ++ Number_toFixed x2 (precision c) ++ "vw + "
                ++ Number_toFixed x3 (precision c)
                ++ Unit_toString (unit c) ++ " , "
                ++ Number_toFixed x4 (precision c)
                ++ Unit_toString (unit c) ++ ")")
         m.
Proof.
  intros G. apply generate_returns in G. subst m.
  apply (set_all_values (convert_units c) (steps c) StepsMap.empty
           (fun v => exists x1 x2 x3 x4 : num,
                v = "clamp(" ++ Number_toFixed x1 (precision c)
                    ++ Unit_toString (unit c) ++ ",  "
                    ++ Number_toFixed x2 (precision c) ++ "vw + "
                    ++ Number_toFixed x3 (precision c)
                    ++ Unit_toString (unit c) ++ " , "
                    ++ Number_toFixed x4 (precision c)
                    ++ Unit_toString (unit c) ++ ")")); [|constructor].
  intros s _. unfold value_text, fixed_with_unit.
  assert (U : unit (convert_units c) = unit c)
    by (unfold convert_units; destruct (unit c) eqn:E; simpl; congruence).
  rewrite U, precision_convert_units.
  do 4 eexists. rewrite !append_assoc. reflexivity.
Qed.

(** X11.  Under [numbered] the suffixes are never read: any other list of
    suffixes, even an empty one, gives the same outcome. *)
Theorem X11_numbered_ignores_suffixes (c : Config num) (l : list string) :
  suffixType c = numbered ->
  generate (with_suffixValues c l) = generate c.
Proof.
  intros T. unfold generate, insufficient_suffixes. cbn. rewrite T. cbn.
  apply for_steps_ext. intros s _. split.
  - unfold convert_units. cbn. destruct (unit c); reflexivity.
  - rewrite !key_convert_units. unfold key. cbn. now rewrite T.
Qed.

(** X12.  The suffixes after the first [maxStep + minStep + 1] are never
    read: cutting the list there gives the same outcome. *)
Theorem X12_surplus_suffixes_ignored (c : Config num) :
  generate (with_suffixValues c (firstn (step_count c) (suffixValues c)))
  = generate c.
Proof.
  destruct (Nat.le_gt_cases (List.length (suffixValues c)) (step_count c))
    as [Short|Long].
  - rewrite firstn_all2 by exact Short. destruct c. reflexivity.
  - assert (I : insufficient_suffixes c = false).
    { destruct (insufficient_suffixes c) eqn:E; [|reflexivity].
      apply insufficient_iff in E. unfold step_count in Long. lia. }
    assert (I' : insufficient_suffixes
                   (with_suffixValues c
                      (firstn (step_count c) (suffixValues c))) = false).
    { destruct (insufficient_suffixes
                  (with_suffixValues c
                     (firstn (step_count c) (suffixValues c)))) eqn:E;
        [|reflexivity].
      apply insufficient_iff in E. cbn in E. destruct E as [_ E].
      rewrite length_firstn in E. unfold step_count in *. lia. }
    unfold generate. rewrite I, I'.
    change (steps (with_suffixValues c
                     (firstn (step_count c) (suffixValues c))))
      with (steps c).
    apply for_steps_ext. intros s R. apply steps_In in R. split.
    + unfold convert_units. cbn. destruct (unit c); reflexivity.
    + rewrite !key_convert_units. unfold key. cbn.
      destruct (suffixType c); [reflexivity|].
      unfold index_or_undefined.
      destruct (Z.ltb_spec s 0); [reflexivity|].
      rewrite nth_firstn_below by (unfold step_count; lia). reflexivity.
Qed.

(** X13.  Under [px] the root font size is never read: any other value gives
    the same outcome. *)
Theorem X13_px_ignores_rootFontSize (c : Config num) (r : num) :
  unit c = px ->
  generate (with_rootFontSize c r) = generate c.
Proof.
  intros U. unfold generate.
  change (insufficient_suffixes (with_rootFontSize c r))
    with (insufficient_suffixes c).
  destruct (insufficient_suffixes c); [reflexivity|].
  change (steps (with_rootFontSize c r)) with (steps c).
  apply for_steps_ext. intros s _. split.
  - unfold convert_units. cbn. rewrite U. reflexivity.
  - rewrite !key_convert_units. reflexivity.
Qed.

End ShapeFacts.

(** ** The visitors *)

(** The sum over the declarations and comments in and below a node of a
    weight given to each. *)
Fixpoint weigh (w : node -> nat) (n : node) : nat :=
  match n with
  | rule _ nodes => list_sum (map (weigh w) nodes)
  | atrule _ _ nodes => list_sum (map (weigh w) nodes)
  | _ => w n
  end.

Definition weigh_all (w : node -> nat) (nodes : list node) : nat :=
  list_sum (map (weigh w) nodes).

Definition is_decl (n : node) : nat :=
  match n with
  | decl _ _ => 1
  | _ => 0
  end.

Definition is_comment_with (directive : string) (n : node) : nat :=
  match n with
  | comment text => if String.eqb text directive then 1 else 0
  | _ => 0
  end.

Definition is_other_comment (directive : string) (n : node) : nat :=
  match n with
  | comment text => if String.eqb text directive then 0 else 1
  | _ => 0
  end.

Lemma matches_none (m : StepsMap.t) (tokens : list string) :
  (forall w, In w tokens -> StepsMap.get w m = None) -> matches m tokens = [].
Proof.
  induction tokens as [|w tokens IH]; simpl; intros N; [reflexivity|].
  rewrite (N w (or_introl eq_refl)). apply IH. intros w' I. apply N. now right.
Qed.

Lemma fontVars_weigh (P : Plugin) (w : node -> nat) :
  (forall p v, w (decl p v) = 1%nat) ->
  weigh_all w (fontVars P) = List.length (stepsMap P).
Proof.
  intros W. unfold weigh_all, fontVars.
  induction (stepsMap P) as [|kv m IH]; simpl; [reflexivity|].
  now rewrite W, IH.
Qed.

Lemma fontVars_weigh_zero (P : Plugin) (w : node -> nat) :
  (forall p v, w (decl p v) = 0%nat) -> weigh_all w (fontVars P) = 0%nat.
Proof.
  intros W. unfold weigh_all, fontVars.
  induction (stepsMap P) as [|kv m IH]; simpl; [reflexivity|].
  now rewrite W, IH.
Qed.

(** The weight after the walk is the weight before with every directive
    comment weighing as its replacement. *)
Lemma walkComments_node_weigh (directive : string) (replacement : list node)
      (w : node -> nat) (n : node) :
  weigh_all w
    (walkComments_node
       (fun text => if String.eqb text directive then Some replacement else None)
       n)
  = weigh
      (fun leaf =>
         (w leaf * is_other_comment directive leaf
          + w leaf * is_decl leaf
          + weigh_all w replacement * is_comment_with directive leaf)%nat)
      n.
Proof.
  induction n as [p v|t|s ns IH|a ps ns IH] using node_ind_nested.
  - unfold weigh_all. simpl. lia.
  - unfold weigh_all. simpl.
    destruct (String.eqb t directive); simpl; lia.
  - unfold weigh_all. simpl. rewrite Nat.add_0_r.
    induction ns as [|x ns IHns]; simpl; [reflexivity|].
    inversion IH as [|? ? Hx Hns]; subst.
    rewrite map_app, list_sum_app. fold (weigh_all w (walkComments_node
      (fun text => if String.eqb text directive then Some replacement else None)
      x)).
    rewrite Hx. f_equal. now apply IHns.
  - unfold weigh_all. simpl. rewrite Nat.add_0_r.
    induction ns as [|x ns IHns]; simpl; [reflexivity|].
    inversion IH as [|? ? Hx Hns]; subst.
    rewrite map_app, list_sum_app. fold (weigh_all w (walkComments_node
      (fun text => if String.eqb text directive then Some replacement else None)
      x)).
    rewrite Hx. f_equal. now apply IHns.
Qed.

Lemma weigh_linear (w w1 w2 w3 : node -> nat) (k1 k2 k3 : nat) (n : node) :
  (forall p v, w (decl p v)
               = (k1 * w1 (decl p v) + k2 * w2 (decl p v)
                  + k3 * w3 (decl p v))%nat) ->
  (forall t, w (comment t)
             = (k1 * w1 (comment t) + k2 * w2 (comment t)
                + k3 * w3 (comment t))%nat) ->
  weigh w n = (k1 * weigh w1 n + k2 * weigh w2 n + k3 * weigh w3 n)%nat.
Proof.
  intros Hd Hc.
  induction n as [p v|t|s ns IH|a ps ns IH] using node_ind_nested; simpl.
  - apply Hd.
  - apply Hc.
  - induction ns as [|x ns IHns]; simpl; [lia|].
    inversion IH as [|? ? Hx Hns]; subst. rewrite Hx, (IHns Hns). lia.
  - induction ns as [|x ns IHns]; simpl; [lia|].
    inversion IH as [|? ? Hx Hns]; subst. rewrite Hx, (IHns Hns). lia.
Qed.

Lemma walkComments_weigh (directive : string) (replacement : list node)
      (w : node -> nat) (nodes : list node) :
  weigh_all w
    (walkComments
       (fun text => if String.eqb text directive then Some replacement else None)
       nodes)
  = (weigh_all (fun leaf => (w leaf * is_other_comment directive leaf)%nat) nodes
     + weigh_all (fun leaf => (w leaf * is_decl leaf)%nat) nodes
     + weigh_all w replacement * weigh_all (is_comment_with directive) nodes)%nat.
Proof.
  unfold walkComments.
  induction nodes as [|x nodes IH]; simpl.
  - unfold weigh_all. simpl. lia.
  - unfold weigh_all in *. rewrite map_app, list_sum_app. simpl.
    rewrite IH.
    fold (weigh_all w (walkComments_node
      (fun text => if String.eqb text directive then Some replacement else None)
      x)).
    rewrite walkComments_node_weigh.
    rewrite (weigh_linear _
               (fun leaf => (w leaf * is_other_comment directive leaf)%nat)
               (fun leaf => (w leaf * is_decl leaf)%nat)
               (is_comment_with directive)
               1 1 (list_sum (map (weigh w) replacement)) x)
      by (intros; unfold weigh_all; lia).
    lia.
Qed.

Lemma weigh_all_ext (w1 w2 : node -> nat) (nodes : list node) :
  (forall leaf, w1 leaf = w2 leaf) -> weigh_all w1 nodes = weigh_all w2 nodes.
Proof.
  intros W. unfold weigh_all.
  induction nodes as [|x ns IH]; simpl; [reflexivity|]. rewrite IH.
  rewrite (weigh_linear w1 w2 w2 w2 1 0 0 x) by (intros; rewrite W; lia).
  lia.
Qed.

Lemma weigh_all_zero (w : node -> nat) (nodes : list node) :
  (forall leaf, w leaf = 0%nat) -> weigh_all w nodes = 0%nat.
Proof.
  intros W. unfold weigh_all.
  induction nodes as [|x ns IH]; simpl; [reflexivity|]. rewrite IH.
  rewrite (weigh_linear w w w w 0 0 0 x) by (intros; rewrite W; lia). lia.
Qed.

(** X14.  The test for the prefix loses nothing: when every word token is a
    part of the value, a value without the prefix has no token that is a
    key, so with [replaceInline] on the result is always the expression of
    the last word token that is a key, and the value itself when there is
    none. *)
Theorem X14_prefilter_loses_nothing {num} `{JSNumber num}
        (valueParser : string -> list vnode) (c : Config num) (P : Plugin)
        (prop v : string) :
  plugin_body c = Ok P ->
  (forall w, In w (word_tokens (valueParser v)) -> includes v w = true) ->
  Declaration valueParser P prop v
  = (if replaceInline c
     then last (matches (stepsMap P) (word_tokens (valueParser v))) v
     else v).
Proof.
  intros B Sub. destruct (plugin_body_returns c P B) as (G & Ri & _ & Pr).
  unfold Declaration. rewrite Ri, Pr.
  destruct (replaceInline c); [|reflexivity]. simpl.
  destruct (includes v (prefix c)) eqn:I.
  - apply walk_last. now apply (generated_truthy c).
  - rewrite matches_none; [reflexivity|].
    intros w Iw. destruct (StepsMap.get w (stepsMap P)) as [e|] eqn:Ge;
      [|reflexivity].
    exfalso. apply get_in in Ge.
    assert (K : In w (StepsMap.keys (stepsMap P)))
      by (change w with (fst (w, e)); now apply in_map).
    destruct (generated_keys c _ w G K) as (s & _ & ->).
    pose proof (includes_trans v (key c s) (prefix c) (Sub _ Iw)
                               (key_includes_prefix c s)).
    congruence.
Qed.

(** X15.  With [replaceInline] off, no comment with the directive is left in
    or below the rule after the [Rule] visitor; and in either mode running
    the visitor again on its result changes nothing. *)
Theorem X15_no_directive_left (P : Plugin) (selector : string)
        (nodes : list node) :
  (plugin_replaceInline P = false ->
   existsb (mentions (plugin_generatorDirective P)) (Rule P selector nodes)
   = false)
  /\ Rule P selector (Rule P selector nodes) = Rule P selector nodes.
Proof.
  unfold Rule. destruct (plugin_replaceInline P); split; try reflexivity.
  - intros E. discriminate E.
  - intros _. apply walkComments_clears, fontVars_unmentioned.
  - apply walkComments_unchanged, walkComments_clears, fontVars_unmentioned.
Qed.

(** X16.  With [replaceInline] off, the [Rule] visitor adds, for every
    comment with the directive in or below the rule, as many declarations as
    the steps map has entries; the other comments are as many as before. *)
Theorem X16_expansion_counts (P : Plugin) (selector : string)
        (nodes : list node) :
  plugin_replaceInline P = false ->
  weigh_all is_decl (Rule P selector nodes)
  = (weigh_all is_decl nodes
     + List.length (stepsMap P)
       * weigh_all (is_comment_with (plugin_generatorDirective P)) nodes)%nat
  /\ weigh_all (is_other_comment (plugin_generatorDirective P))
               (Rule P selector nodes)
     = weigh_all (is_other_comment (plugin_generatorDirective P)) nodes.
Proof.
  intros Off. unfold Rule. rewrite Off. rewrite !walkComments_weigh.
  rewrite (fontVars_weigh P is_decl) by reflexivity.
  rewrite (fontVars_weigh_zero P (is_other_comment _)) by reflexivity.
  set (d := plugin_generatorDirective P).
  pose proof (fun w W => weigh_all_zero w nodes W) as Z0.
  pose proof (fun w1 w2 W => weigh_all_ext w1 w2 nodes W) as Same.
  split.
  - rewrite (Z0 (fun leaf => (is_decl leaf * is_other_comment d leaf)%nat))
      by (intros [| | |]; simpl; lia).
    rewrite (Same (fun leaf => (is_decl leaf * is_decl leaf)%nat) is_decl)
      by (intros [| | |]; simpl; lia).
    lia.
  - rewrite (Same (fun leaf => (is_other_comment d leaf
                                * is_other_comment d leaf)%nat)
                  (is_other_comment d))
      by (intros [|t| |]; simpl; try lia; destruct (String.eqb t d); lia).
    rewrite (Z0 (fun leaf => (is_other_comment d leaf * is_decl leaf)%nat))
      by (intros [|t| |]; simpl; try lia; destruct (String.eqb t d); lia).
    lia.
Qed.

(** X17.  The two policies agree: for a plugin built from a configuration,
    the declarations that directive expansion writes are exactly the pairs
    of a key and the expression that inline replacement finds under it. *)
Theorem X17_expansion_agrees_with_lookup {num} `{JSNumber num}
        (c : Config num) (P : Plugin) (k v : string) :
  plugin_body c = Ok P ->
  In (decl k v) (fontVars P) <-> StepsMap.get k (stepsMap P) = Some v.
Proof.
  intros B. destruct (plugin_body_returns c P B) as (G & _).
  assert (ND : NoDup (StepsMap.keys (stepsMap P))).
  { apply generate_returns in G. rewrite G. apply set_all_NoDup. constructor. }
  unfold fontVars. rewrite in_map_iff. split.
  - intros ([k' v'] & E & I). simpl in E. injection E as -> ->.
    now apply in_get.
  - intros Ge. exists (k, v). split; [reflexivity | now apply get_in].
Qed.

(** ** The further properties run on concrete configurations *)

(** [minStep = -3] and [maxStep = 1], with 101 digits asked for: the loop has
    no step to run. *)
Definition negative_total : Config Qc :=
  Object_assign defaultConfig
    (mkPartial None None None None None None (Some (-3)) (Some 1)
               None (Some 101) None None None None None None).

(** X4 on three steps named [base], [lg], [base]. *)
Lemma X4_keys_distinct_witness :
  generate base_lg_base
  = Ok [("--font-size-base", "clamp(1.73rem,  1.62vw + 1.40rem , 2.96rem)");
        ("--font-size-lg", "clamp(1.44rem,  1.03vw + 1.23rem , 2.22rem)")]
  /\ NoDup ["--font-size-base"; "--font-size-lg"].
Proof.
  assert (G : generate base_lg_base
              = Ok [("--font-size-base",
                     "clamp(1.73rem,  1.62vw + 1.40rem , 2.96rem)");
                    ("--font-size-lg",
                     "clamp(1.44rem,  1.03vw + 1.23rem , 2.22rem)")])
    by (vm_compute; reflexivity).
  split; [exact G|]. exact (X4_keys_distinct base_lg_base _ G).
Defined.

(** X5 on three steps named [base], [lg], [base]. *)
Lemma X5_keys_first_occurrences_witness :
  generate base_lg_base
  = Ok [("--font-size-base", "clamp(1.73rem,  1.62vw + 1.40rem , 2.96rem)");
        ("--font-size-lg", "clamp(1.44rem,  1.03vw + 1.23rem , 2.22rem)")]
  /\ ["--font-size-base"; "--font-size-lg"]
     = first_occurrences
         ["--font-size-base"; "--font-size-lg"; "--font-size-base"].
Proof.
  assert (G : generate base_lg_base
              = Ok [("--font-size-base",
                     "clamp(1.73rem,  1.62vw + 1.40rem , 2.96rem)");
                    ("--font-size-lg",
                     "clamp(1.44rem,  1.03vw + 1.23rem , 2.22rem)")])
    by (vm_compute; reflexivity).
  split; [exact G|].
  pose proof (X5_keys_first_occurrences base_lg_base _ G) as W.
  vm_compute in W. vm_compute. exact W.
Defined.

(** X6 on three steps named [base], [lg], [base], at step 0. *)
Lemma X6_last_step_wins_witness :
  generate base_lg_base
  = Ok [("--font-size-base", "clamp(1.73rem,  1.62vw + 1.40rem , 2.96rem)");
        ("--font-size-lg", "clamp(1.44rem,  1.03vw + 1.23rem , 2.22rem)")]
  /\ 0 <= 0 <= maxStep base_lg_base + minStep base_lg_base
  /\ exists s',
      0 <= s' <= maxStep base_lg_base + minStep base_lg_base
      /\ key base_lg_base s' = key base_lg_base 0
      /\ (forall s'', s' < s'' <= maxStep base_lg_base + minStep base_lg_base ->
                      key base_lg_base s'' <> key base_lg_base 0)
      /\ StepsMap.get (key base_lg_base 0)
           [("--font-size-base", "clamp(1.73rem,  1.62vw + 1.40rem , 2.96rem)");
            ("--font-size-lg", "clamp(1.44rem,  1.03vw + 1.23rem , 2.22rem)")]
         = Some (value_text (convert_units base_lg_base) s').
Proof.
  assert (G : generate base_lg_base
              = Ok [("--font-size-base",
                     "clamp(1.73rem,  1.62vw + 1.40rem , 2.96rem)");
                    ("--font-size-lg",
                     "clamp(1.44rem,  1.03vw + 1.23rem , 2.22rem)")])
    by (vm_compute; reflexivity).
  assert (R : 0 <= 0 <= maxStep base_lg_base + minStep base_lg_base)
    by (cbn; lia).
  split; [exact G|]. split; [exact R|].
  exact (X6_last_step_wins base_lg_base _ 0 G R).
Defined.

(** X7 on the defaults with 101 digits asked for. *)
Lemma X7_range_error_witness :
  ~ (suffixType precision_101 = values
     /\ Z.of_nat (List.length (suffixValues precision_101))
        <= minStep precision_101 + maxStep precision_101)
  /\ 0 <= maxStep precision_101 + minStep precision_101
  /\ (precision precision_101 < 0 \/ 100 < precision precision_101)
  /\ generate precision_101 = Throw RangeError.
Proof.
  assert (S : ~ (suffixType precision_101 = values
                 /\ Z.of_nat (List.length (suffixValues precision_101))
                    <= minStep precision_101 + maxStep precision_101))
    by (intros [T _]; discriminate T).
  assert (L : 0 <= maxStep precision_101 + minStep precision_101)
    by (cbn; lia).
  assert (B : precision precision_101 < 0 \/ 100 < precision precision_101)
    by (right; cbn; lia).
  split; [exact S|]. split; [exact L|]. split; [exact B|].
  exact (proj2 (X7_range_error precision_101) (conj S (conj L B))).
Defined.

(** X8 on a configuration with no step, although 101 digits are asked for. *)
Lemma X8_returns_witness :
  maxStep negative_total + minStep negative_total < 0
  /\ generate negative_total = Ok [].
Proof.
  assert (L : maxStep negative_total + minStep negative_total < 0)
    by (cbn; lia).
  split; [exact L|]. exact (proj2 (X8_returns negative_total) L).
Defined.

(** X9 on two steps below the base and one above. *)
Lemma X9_key_format_witness :
  generate two_below_one_above
  = Ok [("--font-size-2", "clamp(1.44rem,  1.03vw + 1.23rem , 2.22rem)");
        ("--font-size-3", "clamp(1.73rem,  1.62vw + 1.40rem , 2.96rem)");
        ("--font-size-4", "clamp(2.07rem,  2.46vw + 1.58rem , 3.95rem)");
        ("--font-size-5", "clamp(2.49rem,  3.65vw + 1.76rem , 5.26rem)")]
  /\ Forall (fun k => includes k "font-size-" = true)
            ["--font-size-2"; "--font-size-3"; "--font-size-4"; "--font-size-5"].
Proof.
  assert (G : generate two_below_one_above
              = Ok [("--font-size-2", "clamp(1.44rem,  1.03vw + 1.23rem , 2.22rem)");
                    ("--font-size-3", "clamp(1.73rem,  1.62vw + 1.40rem , 2.96rem)");
                    ("--font-size-4", "clamp(2.07rem,  2.46vw + 1.58rem , 3.95rem)");
                    ("--font-size-5", "clamp(2.49rem,  3.65vw + 1.76rem , 5.26rem)")])
    by (vm_compute; reflexivity).
  split; [exact G|].
  pose proof (X9_key_format two_below_one_above _ G) as W.
  apply Forall_forall. intros k I.
  rewrite Forall_forall in W. exact (proj2 (proj2 (W k I))).
Defined.

(** X10 on two steps below the base and one above. *)
Lemma X10_value_shape_witness :
  generate two_below_one_above
  = Ok [("--font-size-2", "clamp(1.44rem,  1.03vw + 1.23rem , 2.22rem)");
        ("--font-size-3", "clamp(1.73rem,  1.62vw + 1.40rem , 2.96rem)");
        ("--font-size-4", "clamp(2.07rem,  2.46vw + 1.58rem , 3.95rem)");
        ("--font-size-5", "clamp(2.49rem,  3.65vw + 1.76rem , 5.26rem)")]
  /\ exists x1 x2 x3 x4 : Qc,
      "clamp(1.44rem,  1.03vw + 1.23rem , 2.22rem)"
      = "clamp(" ++ Number_toFixed x1 2 ++ "rem" ++ ",  "
        ++ Number_toFixed x2 2 ++ "vw + "
        ++ Number_toFixed x3 2 ++ "rem" ++ " , "
        ++ Number_toFixed x4 2 ++ "rem" ++ ")".
Proof.
  assert (G : generate two_below_one_above
              = Ok [("--font-size-2", "clamp(1.44rem,  1.03vw + 1.23rem , 2.22rem)");
                    ("--font-size-3", "clamp(1.73rem,  1.62vw + 1.40rem , 2.96rem)");
                    ("--font-size-4", "clamp(2.07rem,  2.46vw + 1.58rem , 3.95rem)");
                    ("--font-size-5", "clamp(2.49rem,  3.65vw + 1.76rem , 5.26rem)")])
    by (vm_compute; reflexivity).
  split; [exact G|].
  pose proof (X10_value_shape two_below_one_above _ G) as W.
  inversion W as [|? ? Hd _]. exact Hd.
Defined.

(** X11 on the defaults with the suffixes taken away. *)
Lemma X11_numbered_ignores_suffixes_witness :
  suffixType (defaultConfig (num := Qc)) = numbered
  /\ generate (with_suffixValues (defaultConfig (num := Qc)) [])
     = generate (defaultConfig (num := Qc)).
Proof.
  assert (T : suffixType (defaultConfig (num := Qc)) = numbered)
    by reflexivity.
  split; [exact T|].
  exact (X11_numbered_ignores_suffixes defaultConfig [] T).
Defined.

(** X13 on the [px] defaults with a root font size of 10. *)
Lemma X13_px_ignores_rootFontSize_witness :
  unit (px_defaults (num := Qc)) = px
  /\ generate (with_rootFontSize (px_defaults (num := Qc)) (Number_ofZ 10))
     = generate (px_defaults (num := Qc)).
Proof.
  assert (U : unit (px_defaults (num := Qc)) = px) by reflexivity.
  split; [exact U|].
  exact (X13_px_ignores_rootFontSize px_defaults (Number_ofZ 10) U).
Defined.

(** X14 on a value that lacks the prefix. *)
Lemma X14_prefilter_loses_nothing_witness :
  plugin_body inline_defaults = Ok (plugin_of inline_defaults)
  /\ (forall w, In w (word_tokens (SimpleParser.parse "var(--gap) 2px")) ->
                includes "var(--gap) 2px" w = true)
  /\ Declaration SimpleParser.parse (plugin_of inline_defaults)
                 "margin" "var(--gap) 2px"
     = "var(--gap) 2px".
Proof.
  assert (B : plugin_body inline_defaults = Ok (plugin_of inline_defaults))
    by (vm_compute; reflexivity).
  assert (S : forall w,
             In w (word_tokens (SimpleParser.parse "var(--gap) 2px")) ->
             includes "var(--gap) 2px" w = true).
  { intros w I. vm_compute in I.
    destruct I as [<-|[<-|[]]]; vm_compute; reflexivity. }
  split; [exact B|]. split; [exact S|].
  pose proof (X14_prefilter_loses_nothing SimpleParser.parse inline_defaults
                (plugin_of inline_defaults) "margin" "var(--gap) 2px" B S) as W.
  vm_compute in W. vm_compute. exact W.
Defined.

(** X15 on a rule with the directive at two depths. *)
Lemma X15_no_directive_left_witness :
  plugin_replaceInline (plugin_of two_below_one_above) = false
  /\ existsb (mentions "postcss-modular-type-generate")
       (Rule (plugin_of two_below_one_above) ":root"
             [comment "postcss-modular-type-generate";
              rule "&:hover" [comment "postcss-modular-type-generate"]])
     = false.
Proof.
  assert (Off : plugin_replaceInline (plugin_of two_below_one_above) = false)
    by reflexivity.
  split; [exact Off|].
  exact (proj1 (X15_no_directive_left (plugin_of two_below_one_above) ":root"
                  [comment "postcss-modular-type-generate";
                   rule "&:hover" [comment "postcss-modular-type-generate"]])
               Off).
Defined.

(** X16 on a rule with one declaration, the directive at two depths and
    another comment: one declaration and twice four more. *)
Lemma X16_expansion_counts_witness :
  plugin_replaceInline (plugin_of two_below_one_above) = false
  /\ weigh_all is_decl
       (Rule (plugin_of two_below_one_above) ":root"
             [decl "color" "red"; comment "postcss-modular-type-generate";
              rule "&:hover"
                   [comment "postcss-modular-type-generate"; comment "note"]])
     = 9%nat
  /\ weigh_all (is_other_comment "postcss-modular-type-generate")
       (Rule (plugin_of two_below_one_above) ":root"
             [decl "color" "red"; comment "postcss-modular-type-generate";
              rule "&:hover"
                   [comment "postcss-modular-type-generate"; comment "note"]])
     = 1%nat.
Proof.
  assert (Off : plugin_replaceInline (plugin_of two_below_one_above) = false)
    by reflexivity.
  split; [exact Off|].
  destruct (X16_expansion_counts (plugin_of two_below_one_above) ":root"
              [decl "color" "red"; comment "postcss-modular-type-generate";
               rule "&:hover"
                    [comment "postcss-modular-type-generate"; comment "note"]]
              Off) as [D O].
  split; [vm_compute in D; vm_compute; exact D|].
  vm_compute in O. vm_compute. exact O.
Defined.

(** X17 on the base step of the defaults. *)
Lemma X17_expansion_agrees_with_lookup_witness :
  plugin_body inline_defaults = Ok (plugin_of inline_defaults)
  /\ (In (decl "--font-size-0" "clamp(1.00rem,  0.33vw + 0.93rem , 1.25rem)")
         (fontVars (plugin_of inline_defaults))
      <-> StepsMap.get "--font-size-0" (stepsMap (plugin_of inline_defaults))
          = Some "clamp(1.00rem,  0.33vw + 0.93rem , 1.25rem)").
Proof.
  assert (B : plugin_body inline_defaults = Ok (plugin_of inline_defaults))
    by (vm_compute; reflexivity).
  split; [exact B|].
  exact (X17_expansion_agrees_with_lookup inline_defaults
           (plugin_of inline_defaults) "--font-size-0"
           "clamp(1.00rem,  0.33vw + 0.93rem , 1.25rem)" B).
Defined.
